(** * DeepSCF: effective potential and correction energy of deepqc/scf/scf.py

    A shallow embedding of [deepqc.scf.scf.DeepSCF].  Arrays (numpy ndarrays
    and torch tensors alike) are a shape together with a row-major buffer;
    entries are real numbers, the idealisation of the double precision values
    the source works with.  Python exceptions are the error side of a small
    result monad.  The routines of the libraries the source calls are
    embedded by what they compute ([torch.split], [torch.einsum],
    [torch.cat], [torch.stack], reverse-mode differentiation through them);
    the LAPACK eigen-solver behind [torch.symeig], the learned network and
    the baseline Hartree-Fock solver are left abstract: the solver is a
    variable, the network and the baseline are fields of the engine.

    The file has two parts: the definitions (the embedding, the formulas of
    the specification, small concrete instances), then the facts, which end
    with one theorem for each property of the specification that is
    checked here. *)

From Stdlib Require Import List Arith Bool Lia Reals Lra.
Import ListNotations.

(* ================================================================== *)
(** * Python exceptions and the result monad *)

Inductive exn : Type :=
| AssertionError
| RuntimeError
| ValueError
| AttributeError
| ZeroDivisionError.

Inductive result (A : Type) : Type :=
| Ok (a : A)
| Raise (e : exn).

Arguments Ok {A} a.
Arguments Raise {A} e.

Definition bind {A B : Type} (c : result A) (k : A -> result B) : result B :=
  match c with
  | Ok a => k a
  | Raise e => Raise e
  end.

Notation "x <- c ;; k" := (bind c (fun x => k))
  (at level 61, c at next level, right associativity).

Notation "' pat <- c ;; k" := (bind c (fun x => match x with pat => k end))
  (at level 61, pat pattern, c at next level, right associativity).

(** A list comprehension [[f x for x in xs]] whose body may raise. *)
Fixpoint mapM {A B : Type} (f : A -> result B) (xs : list A) : result (list B) :=
  match xs with
  | [] => Ok []
  | x :: xs' =>
      y <- f x ;;
      ys <- mapM f xs' ;;
      Ok (y :: ys)
  end.

Definition is_ok {A : Type} (c : result A) : bool :=
  match c with Ok _ => true | Raise _ => false end.

(* ================================================================== *)
(** * Finite sums of reals *)

Open Scope R_scope.

Fixpoint sumR (n : nat) (f : nat -> R) : R :=
  match n with
  | O => 0
  | S k => sumR k f + f k
  end.

(* ================================================================== *)
(** * Arrays: shape and row-major buffer *)

Record ndarray : Type := mk_nd { shape : list nat; data : list R }.

Definition numel (sh : list nat) : nat := fold_right Nat.mul 1%nat sh.

Definition ndim (a : ndarray) : nat := length (shape a).

(** The buffer has as many entries as the shape says. *)
Definition wf (a : ndarray) : Prop := length (data a) = numel (shape a).

(** Row-major offset of a multi-index, and its inverse. *)
Fixpoint ravel (sh idx : list nat) : nat :=
  match sh, idx with
  | _ :: sh', i :: idx' => (i * numel sh' + ravel sh' idx')%nat
  | _, _ => 0%nat
  end.

Fixpoint unravel (sh : list nat) (k : nat) : list nat :=
  match sh with
  | [] => []
  | _ :: sh' => (k / numel sh')%nat :: unravel sh' (k mod numel sh')%nat
  end.

(** [inb sh idx]: the multi-index has the rank of [sh] and is in range. *)
Fixpoint inb (sh idx : list nat) : bool :=
  match sh, idx with
  | [], [] => true
  | n :: sh', i :: idx' => (i <? n)%nat && inb sh' idx'
  | _, _ => false
  end.

Definition get (a : ndarray) (idx : list nat) : R :=
  nth (ravel (shape a) idx) (data a) 0.

Definition build (sh : list nat) (f : list nat -> R) : ndarray :=
  mk_nd sh (map (fun k => f (unravel sh k)) (seq 0 (numel sh))).

Definition ix (idx : list nat) (k : nat) : nat := nth k idx 0%nat.

Definition get1 (a : ndarray) (i : nat) : R := get a [i].
Definition get2 (a : ndarray) (i j : nat) : R := get a [i; j].
Definition get3 (a : ndarray) (i j k : nat) : R := get a [i; j; k].
Definition get5 (a : ndarray) (i j k l m : nat) : R := get a [i; j; k; l; m].

Definition build1 (n : nat) (f : nat -> R) : ndarray :=
  build [n] (fun idx => f (ix idx 0)).
Definition build2 (n m : nat) (f : nat -> nat -> R) : ndarray :=
  build [n; m] (fun idx => f (ix idx 0) (ix idx 1)).
Definition build3 (n m l : nat) (f : nat -> nat -> nat -> R) : ndarray :=
  build [n; m; l] (fun idx => f (ix idx 0) (ix idx 1) (ix idx 2)).
Definition build5 (n1 n2 n3 n4 n5 : nat)
    (f : nat -> nat -> nat -> nat -> nat -> R) : ndarray :=
  build [n1; n2; n3; n4; n5]
    (fun idx => f (ix idx 0) (ix idx 1) (ix idx 2) (ix idx 3) (ix idx 4)).

Definition shape_eqb (s t : list nat) : bool :=
  if list_eq_dec Nat.eq_dec s t then true else false.

Definition zeros (sh : list nat) : ndarray := build sh (fun _ => 0).


(* ================================================================== *)
(** * Library operations on arrays *)

(** [a.reshape(sh)] of numpy: same buffer, new shape, when the sizes agree. *)
Definition np_reshape (a : ndarray) (sh : list nat) : result ndarray :=
  if (numel sh =? length (data a))%nat then Ok (mk_nd sh (data a))
  else Raise ValueError.

(** Broadcasting of one axis, as [einsum] of numpy and of torch does it for
    a subscript that occurs in two operands: the two lengths fit when they
    agree or one of them is 1; the axis then has the other length, and the
    operand of length 1 is read at position 0 throughout. *)
Definition bc_fit (n m : nat) : bool :=
  (n =? m)%nat || (n =? 1)%nat || (m =? 1)%nat.
Definition bc_len (n m : nat) : nat := if (n =? 1)%nat then m else n.
Definition bc_ix (n i : nat) : nat := if (n =? 1)%nat then 0%nat else i.

(** The shape two operands are broadcast to by numpy: the axes are aligned
    at the end, a missing leading axis counts as one of length 1.  Both
    shapes are given last axis first. *)
Fixpoint bc_rev (s t : list nat) : option (list nat) :=
  match s, t with
  | [], _ => Some t
  | _, [] => Some s
  | n :: s', m :: t' =>
      if bc_fit n m
      then match bc_rev s' t' with
           | Some r => Some (bc_len n m :: r)
           | None => None
           end
      else None
  end.

Definition bc_shape (s t : list nat) : option (list nat) :=
  match bc_rev (rev s) (rev t) with
  | Some r => Some (rev r)
  | None => None
  end.

(** The entry of [a] that belongs to a multi-index of the broadcast shape:
    the leading axes [a] does not have are dropped, and an axis of length 1
    is read at position 0. *)
Definition bc_get (a : ndarray) (idx : list nat) : R :=
  get a (map (fun ni => bc_ix (fst ni) (snd ni))
             (combine (shape a) (skipn (length idx - length (shape a)) idx))).

(** [a + b] of numpy. *)
Definition np_add (a b : ndarray) : result ndarray :=
  match bc_shape (shape a) (shape b) with
  | Some sh => Ok (build sh (fun idx => bc_get a idx + bc_get b idx))
  | None => Raise ValueError
  end.

(** [np.einsum('ij,ji', a, b)]: the full contraction, a scalar. *)
Definition np_einsum_ij_ji (a b : ndarray) : result R :=
  match shape a, shape b with
  | [ni; nj], [nj'; ni'] =>
      if bc_fit ni ni' && bc_fit nj nj'
      then Ok (sumR (bc_len ni ni') (fun i => sumR (bc_len nj nj') (fun j =>
                 get2 a (bc_ix ni i) (bc_ix nj j)
                 * get2 b (bc_ix nj' j) (bc_ix ni' i))))
      else Raise ValueError
  | _, _ => Raise ValueError
  end.

(** The window [off, off + w) of the last axis. *)
Definition narrow_last (t : ndarray) (off w : nat) : ndarray :=
  build (removelast (shape t) ++ [w])
        (fun idx => get t (removelast idx ++ [(off + last idx 0)%nat])).

Fixpoint split_from (t : ndarray) (off : nat) (secs : list nat) : list ndarray :=
  match secs with
  | [] => []
  | w :: secs' => narrow_last t off w :: split_from t (off + w) secs'
  end.

(** [torch.split(t, secs, -1)]: consecutive windows of the given widths,
    which must add up to the size of the last axis. *)
Definition torch_split (t : ndarray) (secs : list nat) : result (list ndarray) :=
  match shape t with
  | [] => Raise RuntimeError
  | _ :: _ =>
      if (list_sum secs =? last (shape t) 0)%nat
      then Ok (split_from t 0 secs)
      else Raise RuntimeError
  end.

Definition width (t : ndarray) : nat := last (shape t) 0%nat.

Fixpoint cat_pick (ts : list ndarray) (lead : list nat) (j : nat) : R :=
  match ts with
  | [] => 0
  | t :: ts' =>
      if (j <? width t)%nat then get t (lead ++ [j])
      else cat_pick ts' lead (j - width t)
  end.

(** [torch.cat(ts, dim=-1)]: the operands agree on all axes but the last. *)
Definition torch_cat_last (ts : list ndarray) : result ndarray :=
  match ts with
  | [] => Raise RuntimeError
  | t0 :: _ =>
      let lead := removelast (shape t0) in
      if forallb (fun t => negb (ndim t =? 0)%nat
                           && shape_eqb (removelast (shape t)) lead) ts
      then Ok (build (lead ++ [list_sum (map width ts)])
                     (fun idx => cat_pick ts (removelast idx) (last idx 0%nat)))
      else Raise RuntimeError
  end.

(** [t.unsqueeze(0)] and its inverse. *)
Definition unsqueeze0 (t : ndarray) : ndarray := mk_nd (1%nat :: shape t) (data t).
Definition squeeze0 (t : ndarray) : ndarray := mk_nd (tl (shape t)) (data t).

(** [torch.stack(ts)]: a new leading axis over operands of one shape. *)
Definition torch_stack (ts : list ndarray) : result ndarray :=
  match ts with
  | [] => Raise RuntimeError
  | t0 :: _ =>
      if forallb (fun t => shape_eqb (shape t) (shape t0)) ts
      then Ok (build (length ts :: shape t0)
                     (fun idx => get (nth (hd 0%nat idx) ts (zeros [])) (tl idx)))
      else Raise RuntimeError
  end.

(** [t.sum(0)]. *)
Definition sum0 (t : ndarray) : ndarray :=
  build (tl (shape t)) (fun idx => sumR (hd 0%nat (shape t)) (fun k => get t (k :: idx))).

(** [torch.einsum('rap,rs,saq->apq', x, d, y)].  The operands must have
    the ranks the subscripts say; the lengths a subscript has in two
    operands must fit, an axis of length 1 being broadcast (the torch
    releases that have [torch.symeig] do so). *)
Definition einsum_rap_rs_saq_apq (x d y : ndarray) : result ndarray :=
  match shape x, shape d, shape y with
  | [nr; na; np], [nr'; ns'], [ns; na'; nq] =>
      if bc_fit nr nr' && bc_fit ns ns' && bc_fit na na'
      then Ok (build3 (bc_len na na') np nq (fun a p q =>
                 sumR (bc_len nr nr') (fun r => sumR (bc_len ns ns') (fun s =>
                   get3 x (bc_ix nr r) (bc_ix na a) p
                   * get2 d (bc_ix nr' r) (bc_ix ns' s)
                   * get3 y (bc_ix ns s) (bc_ix na' a) q))))
      else Raise RuntimeError
  | _, _, _ => Raise RuntimeError
  end.

(** [torch.einsum('rap,saq->rsapq', x, y)]. *)
Definition einsum_rap_saq_rsapq (x y : ndarray) : result ndarray :=
  match shape x, shape y with
  | [nr; na; np], [ns; na'; nq] =>
      if bc_fit na na'
      then Ok (build5 nr ns (bc_len na na') np nq (fun r s a p q =>
                 get3 x r (bc_ix na a) p * get3 y s (bc_ix na' a) q))
      else Raise RuntimeError
  | _, _ => Raise RuntimeError
  end.

(** [torch.einsum('rsapq,apq->rs', w, g)]. *)
Definition einsum_rsapq_apq_rs (w g : ndarray) : result ndarray :=
  match shape w, shape g with
  | [nr; ns; na; np; nq], [na'; np'; nq'] =>
      if bc_fit na na' && bc_fit np np' && bc_fit nq nq'
      then Ok (build2 nr ns (fun r s =>
                 sumR (bc_len na na') (fun a => sumR (bc_len np np') (fun p =>
                 sumR (bc_len nq nq') (fun q =>
                   get5 w r s (bc_ix na a) (bc_ix np p) (bc_ix nq q)
                   * get3 g (bc_ix na' a) (bc_ix np' p) (bc_ix nq' q))))))
      else Raise RuntimeError
  | _, _ => Raise RuntimeError
  end.

(* ================================================================== *)
(** * The auxiliary basis *)

(** One entry [[l, [zeta, c, ...], [zeta, c, ...], ...]] of a basis in the
    pyscf convention: [b[0]] is the angular momentum, the remaining
    [len(b) - 1] entries are the rows of the radial table. *)
Record Shell : Type := mk_shell { ang : nat; rows : list (list R) }.

Definition _zeta : list R :=
  map (fun e => powerRZ (3 / 2) e) [17; 13; 10; 7; 5; 3; 2; 1; 0; -1; -2; -3]%Z.

Definition _coef : list (list R) :=
  let n := length _zeta in
  map (fun i => map (fun j =>
         (if (i =? j)%nat then 1 else 0) - (if (S i =? j)%nat then 1 else 0))
       (seq 0 n)) (seq 0 n).

Definition _table : list (list R) :=
  map (fun zr => fst zr :: snd zr) (combine _zeta _coef).

Definition DEFAULT_BASIS : list Shell :=
  [mk_shell 0 _table; mk_shell 1 _table; mk_shell 2 _table].

(** [sum(([2*b[0]+1] * (len(b)-1) for b in basis), [])]. *)
Definition make_shell_sec (basis : list Shell) : list nat :=
  concat (map (fun b => repeat (2 * ang b + 1)%nat (length (rows b))) basis).

(* ================================================================== *)
(** * The engine *)

(** The molecule, as far as the engine looks at it: its sizes and the
    overlap integrals [gto.intor_cross('int1e_ovlp_sph', mol, test_mol)]
    between its orbitals and the auxiliary basis placed on its atoms. *)
Record Mole : Type := mk_mole {
  natm : nat;
  nao : nat;
  intor_cross : list Shell -> ndarray
}.

(** Modelled from the spec: the learned functional [QCNet] of
    [deepqc.train.model], which is not among the sources at hand.  Section
    4.4 asks of it a scalar value for a descriptor tensor ([forward]) and
    the gradient of that value with respect to the tensor, as reverse-mode
    differentiation obtains it ([backward]). *)
Record QCNet : Type := mk_net {
  forward : ndarray -> R;
  backward : ndarray -> ndarray
}.

(** What the engine inherits from the baseline solver [scf.hf.RHF]; its
    [get_veff] may raise. *)
Record RHF : Type := mk_rhf {
  mol : Mole;
  hf_get_veff : ndarray -> option ndarray -> option ndarray -> result ndarray;
  make_rdm1 : ndarray;
  get_hcore : ndarray
}.

(** An array with the attributes [lib.tag_array] attaches to it. *)
Record tagged : Type := mk_tagged {
  arr : ndarray;
  tag_ec : option R;
  tag_v0 : option ndarray
}.

Record DeepSCF : Type := mk_scf {
  base : RHF;
  net : QCNet;
  basis : list Shell;
  shell_sec : list nat;
  t_proj_ovlp : ndarray;
  t_proj_shells : list ndarray;
  t_proj_aos : list ndarray
}.

Definition gen_proj_ovlp (m : Mole) (bas : list Shell) : result ndarray :=
  let proj := intor_cross m bas in
  if (natm m =? 0)%nat then Raise ZeroDivisionError
  else np_reshape proj [nao m; natm m; (ix (shape proj) 1 / natm m)%nat].

Definition DeepSCF_init (hf : RHF) (model : QCNet) (bas : list Shell)
  : result DeepSCF :=
  let sec := make_shell_sec bas in
  ovlp <- gen_proj_ovlp (mol hf) bas ;;
  shells <- torch_split ovlp sec ;;
  aos <- mapM (fun po => einsum_rap_saq_rsapq po po) shells ;;
  Ok (mk_scf hf model bas sec ovlp shells aos).

Definition get_veff0 (self : DeepSCF) := hf_get_veff (base self).

Section Engine.

(** The symmetric eigen-solver behind [torch.symeig], on one matrix: the
    eigenvalues in ascending order and, when asked for, the eigenvectors as
    columns. *)
Variable syev : bool -> ndarray -> ndarray * ndarray.

Definition slice0 (t : ndarray) (a : nat) : ndarray :=
  build2 (ix (shape t) 1) (ix (shape t) 2) (fun p q => get3 t a p q).

(** [torch.symeig(t, eigenvectors)] on a batch of square matrices. *)
Definition torch_symeig (eigenvectors : bool) (t : ndarray)
  : result (ndarray * ndarray) :=
  match shape t with
  | [na; n; m] =>
      if (n =? m)%nat
      then Ok (build2 na n (fun a j => get1 (fst (syev eigenvectors (slice0 t a))) j),
               if eigenvectors
               then build3 na n n (fun a p j =>
                      get2 (snd (syev eigenvectors (slice0 t a))) p j)
               else mk_nd [0%nat] [])
      else Raise RuntimeError
  | _ => Raise RuntimeError
  end.

(** The backward pass of [symeig] for a gradient on the eigenvalues only:
    [V . diag(g) . V^T] for every matrix of the batch (torch symmetrises
    this product once more, which does not change it). *)
Definition symeig_backward (v glam : ndarray) : ndarray :=
  build3 (ix (shape v) 0) (ix (shape v) 1) (ix (shape v) 1) (fun a p q =>
    sumR (ix (shape v) 1) (fun j => get3 v a p j * get2 glam a j * get3 v a q j)).

(** [torch.autograd.grad(ec, proj_dms)]: the gradient of the network output
    is carried back through [unsqueeze], [cat] and [symeig]. *)
Definition autograd_grad (model : QCNet) (ceig : ndarray)
    (eigs : list (ndarray * ndarray)) : list ndarray :=
  let g := squeeze0 (backward model ceig) in
  map (fun ge => symeig_backward (snd (snd ge)) (fst ge))
      (combine (split_from g 0 (map (fun e => width (fst e)) eigs)) eigs).

Definition t_proj_dms (self : DeepSCF) (t_dm : ndarray) : result (list ndarray) :=
  mapM (fun po => einsum_rap_rs_saq_apq po t_dm po) (t_proj_shells self).

(** The descriptor tensor [ceig] of [t_get_ec], with the eigen-pairs it
    comes from. *)
Definition t_ceig (self : DeepSCF) (t_dm : ndarray)
  : result (ndarray * list (ndarray * ndarray)) :=
  proj_dms <- t_proj_dms self t_dm ;;
  eigs <- mapM (torch_symeig true) proj_dms ;;
  cat <- torch_cat_last (map fst eigs) ;;
  Ok (unsqueeze0 cat, eigs).

(** The last three statements of [t_get_ec]. *)
Definition reconstruct (paos grad_dms : list ndarray) : result ndarray :=
  shell_vcs <- mapM (fun pg => einsum_rsapq_apq_rs (fst pg) (snd pg))
                    (combine paos grad_dms) ;;
  st <- torch_stack shell_vcs ;;
  Ok (sum0 st).

Definition t_get_ec (self : DeepSCF) (t_dm : ndarray) : result (R * ndarray) :=
  '(ceig, eigs) <- t_ceig self t_dm ;;
  let ec := forward (net self) ceig in
  let grad_dms := autograd_grad (net self) ceig eigs in
  vc <- reconstruct (t_proj_aos self) grad_dms ;;
  Ok (ec, vc).

Definition get_ec (self : DeepSCF) (dm : option ndarray) : result (R * ndarray) :=
  let dm := match dm with Some d => d | None => make_rdm1 (base self) end in
  t_get_ec self dm.

Definition make_eig (self : DeepSCF) (dm : option ndarray) : result ndarray :=
  let dm := match dm with Some d => d | None => make_rdm1 (base self) end in
  proj_dms <- t_proj_dms self dm ;;
  proj_eigs <- mapM (torch_symeig false) proj_dms ;;
  torch_cat_last (map fst proj_eigs).

(** [get_veff(mol, dm, dm_last, vhf_last, hermi)]; [None] for [dm_last] and
    [vhf_last] stands for the default [0]. *)
Definition get_veff (self : DeepSCF) (dm : option ndarray)
    (dm_last : option ndarray) (vhf_last : option tagged) : result tagged :=
  let dm := match dm with Some d => d | None => make_rdm1 (base self) end in
  if negb (ndim dm =? 2)%nat then Raise AssertionError else
  let v0_last := match vhf_last with Some t => tag_v0 t | None => None end in
  v0 <- get_veff0 self dm dm_last v0_last ;;
  '(ec, vc) <- get_ec self (Some dm) ;;
  vtot <- np_add v0 vc ;;
  Ok (mk_tagged vtot (Some ec) (Some v0)).

Definition energy_elec (self : DeepSCF) (dm h1e : option ndarray)
    (vhf : option tagged) : result (R * R) :=
  let dm := match dm with Some d => d | None => make_rdm1 (base self) end in
  let h1e := match h1e with Some h => h | None => get_hcore (base self) end in
  vhf <- match vhf with
         | Some t => match tag_ec t with
                     | Some _ => Ok t
                     | None => get_veff self (Some dm) None None
                     end
         | None => get_veff self (Some dm) None None
         end ;;
  ec <- match tag_ec vhf with Some e => Ok e | None => Raise AttributeError end ;;
  e1 <- np_einsum_ij_ji h1e dm ;;
  v0 <- match tag_v0 vhf with Some v => Ok v | None => Raise AttributeError end ;;
  c <- np_einsum_ij_ji v0 dm ;;
  let e_coul := c * (1 / 2) in
  Ok (e1 + e_coul + ec, e_coul + ec).

End Engine.

(* ================================================================== *)
(** * The formulas of the specification *)

(** Matrix product, transpose and trace, the projected block and the
    contribution of a shell as the specification writes them, and the
    partition it describes. *)

(** One block per shell, of width [(2l+1) * (number of zeta rows)]. *)
Definition spec_shell_widths (bas : list Shell) : list nat :=
  map (fun b => ((2 * ang b + 1) * length (rows b))%nat) bas.

(** Matrix product, transpose and trace. *)
Definition matmul (a b : ndarray) : ndarray :=
  build2 (ix (shape a) 0) (ix (shape b) 1) (fun i j =>
    sumR (ix (shape a) 1) (fun l => get2 a i l * get2 b l j)).

Definition transpose (a : ndarray) : ndarray :=
  build2 (ix (shape a) 1) (ix (shape a) 0) (fun i j => get2 a j i).

Definition trace (a : ndarray) : R := sumR (ix (shape a) 0) (fun i => get2 a i i).

(** [P_a]: the orbitals x width matrix of atom [a] in a shell block. *)
Definition atom_proj (po : ndarray) (a : nat) : ndarray :=
  build2 (ix (shape po) 0) (ix (shape po) 2) (fun r p => get3 po r a p).

(** [M_a = P_a^T . D . P_a]. *)
Definition spec_projected_block (po d : ndarray) (a : nat) : ndarray :=
  matmul (matmul (transpose (atom_proj po a)) d) (atom_proj po a).

(** [V_shell = sum over a of P_a . (dE/dM_a) . P_a^T], entry by entry. *)
Definition spec_shell_potential (po g : ndarray) (r s : nat) : R :=
  sumR (ix (shape po) 1) (fun a =>
    get2 (matmul (matmul (atom_proj po a) (slice0 g a))
                 (transpose (atom_proj po a))) r s).

(** The shell blocks as the specification describes them: the projection
    tensor cut into one block per shell, [(2l+1) * (number of zeta rows)]
    columns wide. *)
Definition spec_shell_blocks (self : DeepSCF) : list ndarray :=
  split_from (t_proj_ovlp self) 0 (spec_shell_widths (basis self)).

(** [lam] is an eigenvalue of the [n] x [n] matrix [m]: some vector that is
    not zero is mapped to [lam] times itself. *)
Definition is_eigenvalue (n : nat) (m : ndarray) (lam : R) : Prop :=
  exists v : nat -> R,
    (exists i, (i < n)%nat /\ v i <> 0)
    /\ forall i, (i < n)%nat -> sumR n (fun j => get2 m i j * v j) = lam * v i.


(** A solver output in ascending order. *)
Definition ascending (n : nat) (w : ndarray) : Prop :=
  forall i j, (i <= j)%nat -> (j < n)%nat -> get1 w i <= get1 w j.

(** A square matrix that equals its transpose. *)
Definition sym_matrix (h : ndarray) : Prop :=
  forall r s, (r < ix (shape h) 0)%nat -> (s < ix (shape h) 0)%nat ->
              get2 h r s = get2 h s r.

(** A batch of square blocks each of which is symmetric. *)
Definition sym_block (g : ndarray) : Prop :=
  forall a p q, (a < ix (shape g) 0)%nat -> (p < ix (shape g) 1)%nat ->
                (q < ix (shape g) 1)%nat -> get3 g a p q = get3 g a q p.

(* ================================================================== *)
(** * Closed forms of the steps of the engine *)

(** What the comprehensions of the engine compute once the shapes are
    known to agree. *)

(** The number of auxiliary functions per atom. *)
Definition n_proj (self : DeepSCF) : nat := ix (shape (t_proj_ovlp self)) 2.

(** Column at which the [k]-th section starts. *)
Definition sec_start (secs : list nat) (k : nat) : nat := list_sum (firstn k secs).

(** A shell block of the projection tensor: orbitals x atoms x width. *)
Definition is_block (nr na : nat) (po : ndarray) : Prop :=
  shape po = [nr; na; width po].

(** A batch of eigenvalues: atoms x width. *)
Definition is_eigs (na : nat) (t : ndarray) : Prop := shape t = [na; width t].

(** A gradient block that fits a shell block. *)
Definition fits (nr na : nat) (po g : ndarray) : Prop :=
  is_block nr na po /\ shape g = [na; width po; width po].

(** A density matrix the contraction with a block over [nr] orbitals
    accepts: rank 2, both axes fitting the orbital axis. *)
Definition dm_fits (nr : nat) (d : ndarray) : bool :=
  match shape d with
  | [n1; n2] => bc_fit nr n1 && bc_fit nr n2
  | _ => false
  end.

(** The [nr] x [nr] matrix the contraction works with on a density matrix
    that fits: an axis of length 1 is repeated [nr] times; with one orbital
    the single axis of the block is repeated instead, which sums the density
    matrix up. *)
Definition dm_expand (nr : nat) (d : ndarray) : ndarray :=
  if (nr =? 1)%nat
  then build2 1 1 (fun _ _ =>
         sumR (ix (shape d) 0) (fun r =>
           sumR (ix (shape d) 1) (fun s => get2 d r s)))
  else build2 nr nr (fun r s =>
         get2 d (bc_ix (ix (shape d) 0) r) (bc_ix (ix (shape d) 1) s)).

Definition pao_of (po : ndarray) : ndarray :=
  build5 (ix (shape po) 0) (ix (shape po) 0) (ix (shape po) 1)
         (ix (shape po) 2) (ix (shape po) 2)
    (fun r s a p q => get3 po r a p * get3 po s a q).

Definition pdm_of (d po : ndarray) : ndarray :=
  build3 (ix (shape po) 1) (ix (shape po) 2) (ix (shape po) 2) (fun a p q =>
    sumR (ix (shape po) 0) (fun r => sumR (ix (shape po) 0) (fun s =>
      get3 po r a p * get2 d r s * get3 po s a q))).

Definition eig_of (syev : bool -> ndarray -> ndarray * ndarray)
    (b : bool) (m : ndarray) : ndarray * ndarray :=
  (build2 (ix (shape m) 0) (ix (shape m) 1)
     (fun a j => get1 (fst (syev b (slice0 m a))) j),
   if b
   then build3 (ix (shape m) 0) (ix (shape m) 1) (ix (shape m) 1)
          (fun a p j => get2 (snd (syev b (slice0 m a))) p j)
   else mk_nd [0%nat] []).

Definition shell_vc_of (pao gdm : ndarray) : ndarray :=
  build2 (ix (shape pao) 0) (ix (shape pao) 1) (fun r s =>
    sumR (ix (shape pao) 2) (fun a => sumR (ix (shape pao) 3) (fun p =>
      sumR (ix (shape pao) 4) (fun q => get5 pao r s a p q * get3 gdm a p q)))).

Definition cat_of (ts : list ndarray) : ndarray :=
  build (removelast (shape (hd (zeros []) ts)) ++ [list_sum (map width ts)])
        (fun idx => cat_pick ts (removelast idx) (last idx 0%nat)).

Definition stack_of (ts : list ndarray) : ndarray :=
  build (length ts :: shape (hd (zeros []) ts))
        (fun idx => get (nth (hd 0%nat idx) ts (zeros [])) (tl idx)).

(** Sum of the entries at one index over a list of arrays. *)
Definition sum_at (ts : list ndarray) (idx : list nat) : R :=
  fold_right (fun t acc => get t idx + acc) 0 ts.

(** The gradients [autograd_grad] returns, shell after shell, from the
    gradient [g] on the concatenated eigenvalues. *)
Fixpoint grads_from (g : ndarray) (off : nat) (eigs : list (ndarray * ndarray))
  : list ndarray :=
  match eigs with
  | [] => []
  | e :: eigs' =>
      symeig_backward (snd e) (narrow_last g off (width (fst e)))
        :: grads_from g (off + width (fst e)) eigs'
  end.

(** The per-shell eigenvalue batches of a density matrix. *)
Definition eigvals_of (syev : bool -> ndarray -> ndarray * ndarray)
    (self : DeepSCF) (b : bool) (d : ndarray) : list ndarray :=
  map fst (map (eig_of syev b) (map (pdm_of d) (t_proj_shells self))).

Definition eigpairs_of (syev : bool -> ndarray -> ndarray * ndarray)
    (self : DeepSCF) (d : ndarray) : list (ndarray * ndarray) :=
  map (eig_of syev true) (map (pdm_of d) (t_proj_shells self)).

Definition ceig_of (syev : bool -> ndarray -> ndarray * ndarray)
    (self : DeepSCF) (d : ndarray) : ndarray :=
  unsqueeze0 (cat_of (eigvals_of syev self true d)).

(** The per-shell gradients [grad_dms] of [t_get_ec]. *)
Definition grad_dms_of (syev : bool -> ndarray -> ndarray * ndarray)
    (self : DeepSCF) (d : ndarray) : list ndarray :=
  grads_from (squeeze0 (backward (net self) (ceig_of syev self d))) 0
             (eigpairs_of syev self d).

(** One shell's contribution to an entry of the potential, and the sum over
    the shells. *)
Definition contrib (po g : ndarray) (r s : nat) : R :=
  sumR (ix (shape po) 1) (fun a =>
    sumR (ix (shape po) 2) (fun p => sumR (ix (shape po) 2) (fun q =>
      get3 po r a p * get3 po s a q * get3 g a p q))).

Fixpoint total_contrib (shells grads : list ndarray) (r s : nat) : R :=
  match shells, grads with
  | po :: shells', g :: grads' => contrib po g r s + total_contrib shells' grads' r s
  | _, _ => 0
  end.

Definition svcs_of (shells grads : list ndarray) : list ndarray :=
  map (fun pg => shell_vc_of (pao_of (fst pg)) (snd pg)) (combine shells grads).

Definition vc_of (shells grads : list ndarray) : ndarray :=
  sum0 (stack_of (svcs_of shells grads)).

(** An array all of whose entries are zero. *)
Definition all_zero (t : ndarray) : Prop := Forall (fun x => x = 0) (data t).

(* ================================================================== *)
(** * Derivatives *)

(** [x + t * h], entry by entry. *)
Definition axpy (x : ndarray) (t : R) (h : ndarray) : ndarray :=
  build (shape x) (fun idx => get x idx + t * get h idx).

(** The inner product of two arrays of one shape. *)
Definition dot (g h : ndarray) : R :=
  sumR (length (data g)) (fun k => nth k (data g) 0 * nth k (data h) 0).

(** The array of shape [sh] that is one at flat position [k] and zero
    elsewhere. *)
Definition unit_at (sh : list nat) (k : nat) : ndarray :=
  mk_nd sh (map (fun i => if (i =? k)%nat then 1 else 0) (seq 0 (numel sh))).

(** The symmetric unit perturbation of the entries [(r, s)] and [(s, r)]. *)
Definition sym_unit (n r s : nat) : ndarray :=
  build2 n n (fun i j =>
    ((if (i =? r)%nat && (j =? s)%nat then 1 else 0)
     + (if (i =? s)%nat && (j =? r)%nat then 1 else 0)) / 2).

(** [df] is the gradient of [f]: the derivative of [f] at [x] along every
    direction [h] is the inner product of [df x] with [h]. *)
Definition is_gradient (f : ndarray -> R) (df : ndarray -> ndarray) : Prop :=
  forall x, wf x ->
    wf (df x) /\ shape (df x) = shape x
    /\ forall h, wf h -> shape h = shape x ->
         derivable_pt_lim (fun t => f (axpy x t h)) 0 (dot (df x) h).

(** Sum over all multi-indices of a shape. *)
Fixpoint sum_idx (sh : list nat) (f : list nat -> R) : R :=
  match sh with
  | [] => f []
  | n :: sh' => sumR n (fun i => sum_idx sh' (fun idx => f (i :: idx)))
  end.

Definition list_axpy (ms : list ndarray) (t : R) (hs : list ndarray) : list ndarray :=
  map (fun mh => axpy (fst mh) t (snd mh)) (combine ms hs).

Definition list_dot (gs hs : list ndarray) : R :=
  fold_right (fun gh acc => dot (fst gh) (snd gh) + acc) 0 (combine gs hs).

(** The correction energy as a function of the projected density blocks, and
    the gradients [t_get_ec] obtains for them. *)
Definition block_energy (syev : bool -> ndarray -> ndarray * ndarray)
    (model : QCNet) (ms : list ndarray) : R :=
  forward model (unsqueeze0 (cat_of (map fst (map (eig_of syev true) ms)))).

Definition block_grads (syev : bool -> ndarray -> ndarray * ndarray)
    (model : QCNet) (ms : list ndarray) : list ndarray :=
  grads_from
    (squeeze0 (backward model
       (unsqueeze0 (cat_of (map fst (map (eig_of syev true) ms))))))
    0 (map (eig_of syev true) ms).

(** Reverse-mode differentiation is exact at the blocks [ms] along the
    directions that satisfy [okdir]: along every such direction the energy
    has a derivative, and it is the inner product of the direction with
    the gradients returned. *)
Definition autograd_exact_on (okdir : ndarray -> Prop)
    (syev : bool -> ndarray -> ndarray * ndarray)
    (model : QCNet) (ms : list ndarray) : Prop :=
  forall hs,
    Forall2 (fun m h => shape h = shape m /\ wf h /\ okdir h) ms hs ->
    derivable_pt_lim (fun t => block_energy syev model (list_axpy ms t hs)) 0
                     (list_dot (block_grads syev model ms) hs).

(** The correction energy as a function of the density matrix. *)
Definition energy_of (syev : bool -> ndarray -> ndarray * ndarray)
    (self : DeepSCF) (d : ndarray) : R :=
  match t_get_ec syev self d with
  | Ok (ec, _) => ec
  | Raise _ => 0
  end.

(* ================================================================== *)
(** * Small concrete instances *)

(** An eigen-solver that is exact on diagonal matrices (and so on every
    1 x 1 block): the diagonal as eigenvalues, the unit vectors as
    eigenvectors. *)
Definition syev_diag (b : bool) (m : ndarray) : ndarray * ndarray :=
  (build1 (ix (shape m) 0) (fun j => get2 m j j),
   build2 (ix (shape m) 0) (ix (shape m) 0)
     (fun p j => if (p =? j)%nat then 1 else 0)).


Definition sum_data (t : ndarray) : R := fold_right Rplus 0 (data t).

(** The model of the usage example that closes the source file:
    [1e-3 * torch.sum(eigs)]. *)
Definition test_model : QCNet :=
  mk_net (fun eigs => / 1000 * sum_data eigs)
         (fun eigs => build (shape eigs) (fun _ => / 1000)).

(** A model that is zero everywhere. *)
Definition zero_model : QCNet :=
  mk_net (fun _ => 0) (fun eigs => zeros (shape eigs)).

(** One s shell with two radial rows. *)
Definition toy_basis : list Shell :=
  [mk_shell 0 [[1; 1; 0]; [2; 0; 1]]].

(** One atom, two orbitals. *)
Definition toy_mol : Mole :=
  mk_mole 1 2 (fun _ => mk_nd [2%nat; 2%nat] [1; 2; 3; 4]).

Definition toy_hf : RHF :=
  mk_rhf toy_mol (fun dm _ _ => Ok (zeros (shape dm)))
         (mk_nd [2%nat; 2%nat] [1; 0; 0; 1])
         (mk_nd [2%nat; 2%nat] [1; 0; 0; 1]).

Definition toy_dm : ndarray := mk_nd [2%nat; 2%nat] [2; 1; 1; 3].

(** The toy engine, as its constructor returns it. *)
Definition toy_self : DeepSCF :=
  match DeepSCF_init toy_hf test_model toy_basis with
  | Ok s => s
  | Raise _ => mk_scf toy_hf test_model toy_basis [] (zeros []) [] []
  end.

(** The projected block of the toy density matrix for the one shell of the
    toy basis, cut as the specification describes the shell blocks. *)
Definition toy_spec_block : ndarray :=
  spec_projected_block (nth 0 (spec_shell_blocks toy_self) (zeros [])) toy_dm 0.

(** The toy engine with the zero model. *)
Definition toy_zero_self : DeepSCF :=
  match DeepSCF_init toy_hf zero_model toy_basis with
  | Ok s => s
  | Raise _ => mk_scf toy_hf zero_model toy_basis [] (zeros []) [] []
  end.

(** One atom and one orbital against the default basis (108 projectors). *)
Definition one_mol : Mole :=
  mk_mole 1 1 (fun _ => mk_nd [1%nat; 108%nat] (repeat 1 108)).

Definition one_hf : RHF :=
  mk_rhf one_mol (fun dm _ _ => Ok (zeros (shape dm)))
         (mk_nd [1%nat; 1%nat] [1]) (mk_nd [1%nat; 1%nat] [1]).

(* ================================================================== *)
(** * An instance with a degenerate block *)

(** One atom, one orbital, one p shell with one radial row; the projector
    is the first of the three p functions, so the projected block of the
    1 x 1 density matrix [[x]] is [diag(x, 0, 0)]. *)

(** An eigen-solver for the matrices [diag(x, 0, 0)]: the eigenvalues in
    ascending order with the matching unit vectors as columns. *)
Definition syev_sorted (b : bool) (m : ndarray) : ndarray * ndarray :=
  if Rlt_dec 0 (get2 m 0 0)
  then (mk_nd [3%nat] [0; 0; get2 m 0 0],
        mk_nd [3%nat; 3%nat] [0; 0; 1;
                              1; 0; 0;
                              0; 1; 0])
  else (mk_nd [3%nat] [get2 m 0 0; 0; 0],
        mk_nd [3%nat; 3%nat] [1; 0; 0;
                              0; 1; 0;
                              0; 0; 1]).

(** A linear model: the energy is the last (largest) descriptor. *)
Definition pick_last : QCNet :=
  mk_net (fun eigs => nth 2 (data eigs) 0) (fun eigs => unit_at (shape eigs) 2).

Definition p_basis : list Shell := [mk_shell 1 [[1; 1]]].

Definition p_mol : Mole :=
  mk_mole 1 1 (fun _ => mk_nd [1%nat; 3%nat] [1; 0; 0]).

Definition p_hf : RHF :=
  mk_rhf p_mol (fun dm _ _ => Ok (zeros (shape dm)))
         (mk_nd [1%nat; 1%nat] [0]) (mk_nd [1%nat; 1%nat] [1]).

Definition p_self : DeepSCF :=
  match DeepSCF_init p_hf pick_last p_basis with
  | Ok s => s
  | Raise _ => mk_scf p_hf pick_last p_basis [] (zeros []) [] []
  end.

(** The 1 x 1 density matrix [[x]]. *)
Definition p_dm (x : R) : ndarray := mk_nd [1%nat; 1%nat] [x].

(* ================================================================== *)
(** * The Hartree-Fock energies of the engine *)

(** [scf.hf.RHF.energy_elec(dm, h1e, vhf)] of pyscf on a given potential, by
    what it computes: the one-electron energy ['ij,ji'] of [h1e] and [dm],
    half the contraction of [vhf] and [dm], their sum and the latter. *)
Definition hf_energy_elec (hf : RHF) (dm h1e : option ndarray) (vhf : ndarray)
  : result (R * R) :=
  let dm := match dm with Some d => d | None => make_rdm1 hf end in
  let h1e := match h1e with Some h => h | None => get_hcore hf end in
  e1 <- np_einsum_ij_ji h1e dm ;;
  c <- np_einsum_ij_ji vhf dm ;;
  let e_coul := c * (1 / 2) in
  Ok (e1 + e_coul, e_coul).

(** [energy_elec0(dm, h1e, vhf)]: without a potential the baseline one is
    computed, [get_veff0(dm=dm)]. *)
Definition energy_elec0 (self : DeepSCF) (dm h1e vhf : option ndarray)
  : result (R * R) :=
  vhf <- match vhf with
         | Some v => Ok v
         | None =>
             get_veff0 self
               match dm with Some d => d | None => make_rdm1 (base self) end
               None None
         end ;;
  hf_energy_elec (base self) dm h1e vhf.

(** [energy_tot0(dm, h1e, vhf)]; [energy_nuc] is the value of
    [self.energy_nuc()]. *)
Definition energy_tot0 (self : DeepSCF) (energy_nuc : R)
    (dm h1e vhf : option ndarray) : result R :=
  e <- energy_elec0 self dm h1e vhf ;;
  Ok (fst e + energy_nuc).

(* ================================================================== *)
(** * An instance without shells *)

(** One atom, two orbitals, and a basis without any shell: the integral
    matrix has no column. *)
Definition bare_mol : Mole := mk_mole 1 2 (fun _ => mk_nd [2%nat; 0%nat] []).

Definition bare_hf : RHF :=
  mk_rhf bare_mol (fun dm _ _ => Ok (zeros (shape dm)))
         (mk_nd [2%nat; 2%nat] [1; 0; 0; 1])
         (mk_nd [2%nat; 2%nat] [1; 0; 0; 1]).

Definition bare_self : DeepSCF :=
  match DeepSCF_init bare_hf test_model [] with
  | Ok s => s
  | Raise _ => mk_scf bare_hf test_model [] [1%nat] (zeros []) [zeros []] []
  end.

(* ------------------------------------------------------------------ *)
(** ** Facts about indexing *)

Section IndexFacts.

Lemma numel_cons n sh : numel (n :: sh) = (n * numel sh)%nat.
Proof. reflexivity. Qed.

Lemma ravel_lt sh : forall idx,
  inb sh idx = true -> (ravel sh idx < numel sh)%nat.
Proof.
  induction sh as [|n sh IH]; intros [|i idx] H; simpl in *; try discriminate.
  - lia.
  - apply andb_prop in H as [Hi Hr]. apply Nat.ltb_lt in Hi.
    specialize (IH _ Hr). nia.
Qed.

Lemma unravel_ravel sh : forall idx,
  inb sh idx = true -> unravel sh (ravel sh idx) = idx.
Proof.
  induction sh as [|n sh IH]; intros [|i idx] H; simpl in *; try discriminate.
  - reflexivity.
  - apply andb_prop in H as [Hi Hr].
    pose proof (ravel_lt _ _ Hr) as Hlt.
    assert (Hn : numel sh <> 0%nat) by lia.
    f_equal.
    + rewrite Nat.div_add_l by assumption.
      rewrite Nat.div_small by assumption. lia.
    + rewrite Nat.add_comm, Nat.Div0.mod_add.
      rewrite Nat.mod_small by assumption. now apply IH.
Qed.

Lemma inb_unravel sh : forall k,
  (k < numel sh)%nat -> inb sh (unravel sh k) = true.
Proof.
  induction sh as [|n sh IH]; intros k Hk; simpl in *.
  - reflexivity.
  - assert (Hn : numel sh <> 0%nat) by (intro E; rewrite E in Hk; lia).
    apply andb_true_intro; split.
    + apply Nat.ltb_lt. apply Nat.Div0.div_lt_upper_bound. lia.
    + apply IH. now apply Nat.mod_upper_bound.
Qed.

Lemma ravel_unravel sh : forall k,
  (k < numel sh)%nat -> ravel sh (unravel sh k) = k.
Proof.
  induction sh as [|n sh IH]; intros k Hk; simpl in *.
  - lia.
  - assert (Hn : numel sh <> 0%nat) by (intro E; rewrite E in Hk; lia).
    rewrite IH by now apply Nat.mod_upper_bound.
    pose proof (Nat.div_mod_eq k (numel sh)). lia.
Qed.

Lemma nth_tabulate (g : nat -> R) n k :
  (k < n)%nat -> nth k (map g (seq 0 n)) 0 = g k.
Proof.
  intros Hk.
  rewrite (nth_indep _ 0 (g 0%nat)) by now rewrite length_map, length_seq.
  rewrite map_nth, seq_nth by assumption. reflexivity.
Qed.

Lemma shape_build sh f : shape (build sh f) = sh.
Proof. reflexivity. Qed.

Lemma wf_build sh f : wf (build sh f).
Proof. unfold wf, build; simpl. now rewrite length_map, length_seq. Qed.

Lemma get_build sh f idx :
  inb sh idx = true -> get (build sh f) idx = f idx.
Proof.
  intros H. unfold get, build; simpl.
  rewrite nth_tabulate by now apply ravel_lt.
  now rewrite unravel_ravel.
Qed.

Lemma build_ext sh f g :
  (forall idx, inb sh idx = true -> f idx = g idx) -> build sh f = build sh g.
Proof.
  intros H. unfold build. f_equal. apply map_ext_in.
  intros k Hk. apply in_seq in Hk. apply H, inb_unravel. lia.
Qed.

(** Two well-formed arrays of one shape with the same entries are equal. *)
Lemma nd_ext a b :
  wf a -> wf b -> shape a = shape b ->
  (forall idx, inb (shape a) idx = true -> get a idx = get b idx) ->
  a = b.
Proof.
  destruct a as [sa da], b as [sb db]; unfold wf, get; simpl.
  intros Ha Hb Hs H. subst sb. f_equal.
  apply nth_ext with (d := 0) (d' := 0); [congruence|].
  intros k Hk. rewrite Ha in Hk.
  specialize (H (unravel sa k) (inb_unravel _ _ Hk)).
  now rewrite ravel_unravel in H.
Qed.

Lemma shape_eqb_eq s t : shape_eqb s t = true <-> s = t.
Proof.
  unfold shape_eqb. destruct (list_eq_dec Nat.eq_dec s t); split; congruence.
Qed.

Lemma shape_eqb_refl s : shape_eqb s s = true.
Proof. now apply shape_eqb_eq. Qed.

End IndexFacts.

(* ------------------------------------------------------------------ *)
(** ** Facts about finite sums *)

Section SumFacts.

Lemma sumR_ext n f g :
  (forall i, (i < n)%nat -> f i = g i) -> sumR n f = sumR n g.
Proof.
  induction n as [|n IH]; intros H; simpl.
  - reflexivity.
  - rewrite IH by (intros; apply H; lia). rewrite H by lia. reflexivity.
Qed.

Lemma sumR_zero n : sumR n (fun _ => 0) = 0.
Proof. induction n as [|n IH]; simpl; [reflexivity | rewrite IH; lra]. Qed.

Lemma sumR_plus n f g :
  sumR n (fun i => f i + g i) = sumR n f + sumR n g.
Proof. induction n as [|n IH]; simpl; [lra | rewrite IH; lra]. Qed.

Lemma sumR_scal c n f : sumR n (fun i => c * f i) = c * sumR n f.
Proof. induction n as [|n IH]; simpl; [lra | rewrite IH; lra]. Qed.

Lemma sumR_scal_r c n f : sumR n (fun i => f i * c) = sumR n f * c.
Proof. induction n as [|n IH]; simpl; [lra | rewrite IH; lra]. Qed.

(** The order of two finite summations does not matter. *)
Lemma sumR_swap n m (f : nat -> nat -> R) :
  sumR n (fun i => sumR m (fun j => f i j)) =
  sumR m (fun j => sumR n (fun i => f i j)).
Proof.
  induction n as [|n IH]; simpl.
  - now rewrite sumR_zero.
  - rewrite IH, <- sumR_plus. reflexivity.
Qed.

(** A sum against an indicator picks one term. *)
Lemma sumR_pick n k f :
  (k < n)%nat ->
  sumR n (fun i => if (i =? k)%nat then f i else 0) = f k.
Proof.
  induction n as [|n IH]; intros Hk; simpl; [lia|].
  destruct (Nat.eq_dec k n) as [->|Hne].
  - rewrite Nat.eqb_refl.
    rewrite sumR_ext with (g := fun _ => 0).
    + rewrite sumR_zero. lra.
    + intros i Hi. destruct (Nat.eqb_spec i n); [lia | reflexivity].
  - rewrite IH by lia. destruct (Nat.eqb_spec n k); [lia | lra].
Qed.

End SumFacts.

(* ------------------------------------------------------------------ *)
(** ** Facts about the result monad *)

Section MonadFacts.

Context {A B : Type}.

Lemma bind_ok (c : result A) (k : A -> result B) b :
  bind c k = Ok b -> exists a, c = Ok a /\ k a = Ok b.
Proof. destruct c as [a|e]; simpl; [eauto | discriminate]. Qed.

(** A comprehension none of whose bodies raises is a [map]. *)
Lemma mapM_map (f : A -> result B) (g : A -> B) xs :
  (forall x, In x xs -> f x = Ok (g x)) -> mapM f xs = Ok (map g xs).
Proof.
  induction xs as [|x xs IH]; intros H; simpl.
  - reflexivity.
  - rewrite (H x) by now left. simpl.
    rewrite IH by (intros; apply H; now right). reflexivity.
Qed.

(** A comprehension raises what its first failing body raises. *)
Lemma mapM_raise (f : A -> result B) e x xs :
  f x = Raise e -> mapM f (x :: xs) = Raise e.
Proof. intros H. simpl. now rewrite H. Qed.

End MonadFacts.

(* ------------------------------------------------------------------ *)
(** ** Entries of built arrays *)

Ltac solve_inb :=
  simpl; repeat (rewrite (proj2 (Nat.ltb_lt _ _)) by lia); reflexivity.

Section EntryFacts.

Lemma get1_build1 n f i : (i < n)%nat -> get1 (build1 n f) i = f i.
Proof. intros. unfold get1, build1. rewrite get_build by solve_inb. reflexivity. Qed.

Lemma get2_build2 n m f i j :
  (i < n)%nat -> (j < m)%nat -> get2 (build2 n m f) i j = f i j.
Proof. intros. unfold get2, build2. rewrite get_build by solve_inb. reflexivity. Qed.

Lemma get3_build3 n m l f i j k :
  (i < n)%nat -> (j < m)%nat -> (k < l)%nat ->
  get3 (build3 n m l f) i j k = f i j k.
Proof. intros. unfold get3, build3. rewrite get_build by solve_inb. reflexivity. Qed.

Lemma get5_build5 n1 n2 n3 n4 n5 f i1 i2 i3 i4 i5 :
  (i1 < n1)%nat -> (i2 < n2)%nat -> (i3 < n3)%nat -> (i4 < n4)%nat ->
  (i5 < n5)%nat ->
  get5 (build5 n1 n2 n3 n4 n5 f) i1 i2 i3 i4 i5 = f i1 i2 i3 i4 i5.
Proof. intros. unfold get5, build5. rewrite get_build by solve_inb. reflexivity. Qed.

(** Ranges of a rank-2 and of a rank-3 index. *)
Lemma inb2 n m idx :
  inb [n; m] idx = true ->
  exists i j, idx = [i; j] /\ (i < n)%nat /\ (j < m)%nat.
Proof.
  destruct idx as [|i [|j [|? ?]]]; simpl; intros Hb;
    rewrite ?andb_false_r in Hb; try discriminate.
  apply andb_prop in Hb as [Hi Hb]. apply andb_prop in Hb as [Hj _].
  apply Nat.ltb_lt in Hi, Hj. eauto.
Qed.

Lemma inb3 n m l idx :
  inb [n; m; l] idx = true ->
  exists i j k, idx = [i; j; k] /\ (i < n)%nat /\ (j < m)%nat /\ (k < l)%nat.
Proof.
  destruct idx as [|i [|j [|k [|? ?]]]]; simpl; intros Hb;
    rewrite ?andb_false_r in Hb; try discriminate.
  apply andb_prop in Hb as [Hi Hb]. apply andb_prop in Hb as [Hj Hb].
  apply andb_prop in Hb as [Hk _].
  apply Nat.ltb_lt in Hi, Hj, Hk. eauto 8.
Qed.

Lemma build2_ext n m f g :
  (forall i j, (i < n)%nat -> (j < m)%nat -> f i j = g i j) ->
  build2 n m f = build2 n m g.
Proof.
  intros H. apply build_ext. intros idx Hb.
  apply inb2 in Hb as (i & j & -> & Hi & Hj). now apply H.
Qed.

Lemma build3_ext n m l f g :
  (forall i j k, (i < n)%nat -> (j < m)%nat -> (k < l)%nat -> f i j k = g i j k) ->
  build3 n m l f = build3 n m l g.
Proof.
  intros H. apply build_ext. intros idx Hb.
  apply inb3 in Hb as (i & j & k & -> & Hi & Hj & Hk). now apply H.
Qed.

Lemma inb5 n1 n2 n3 n4 n5 idx :
  inb [n1; n2; n3; n4; n5] idx = true ->
  exists i1 i2 i3 i4 i5,
    idx = [i1; i2; i3; i4; i5]
    /\ (i1 < n1)%nat /\ (i2 < n2)%nat /\ (i3 < n3)%nat /\ (i4 < n4)%nat
    /\ (i5 < n5)%nat.
Proof.
  destruct idx as [|i1 [|i2 [|i3 [|i4 [|i5 [|? ?]]]]]]; simpl; intros Hb;
    rewrite ?andb_false_r in Hb; try discriminate.
  apply andb_prop in Hb as [H1 Hb]. apply andb_prop in Hb as [H2 Hb].
  apply andb_prop in Hb as [H3 Hb]. apply andb_prop in Hb as [H4 Hb].
  apply andb_prop in Hb as [H5 _].
  apply Nat.ltb_lt in H1, H2, H3, H4, H5.
  exists i1, i2, i3, i4, i5. repeat split; assumption.
Qed.

Lemma build5_ext n1 n2 n3 n4 n5 f g :
  (forall i1 i2 i3 i4 i5, (i1 < n1)%nat -> (i2 < n2)%nat -> (i3 < n3)%nat ->
     (i4 < n4)%nat -> (i5 < n5)%nat -> f i1 i2 i3 i4 i5 = g i1 i2 i3 i4 i5) ->
  build5 n1 n2 n3 n4 n5 f = build5 n1 n2 n3 n4 n5 g.
Proof.
  intros H. apply build_ext. intros idx Hb.
  apply inb5 in Hb as (i1 & i2 & i3 & i4 & i5 & -> & H1 & H2 & H3 & H4 & H5).
  now apply H.
Qed.

(** An axis that has one length in both operands is not broadcast. *)
Lemma bc_fit_refl n : bc_fit n n = true.
Proof. unfold bc_fit. now rewrite Nat.eqb_refl. Qed.

Lemma bc_len_refl n : bc_len n n = n.
Proof. unfold bc_len. destruct (Nat.eqb_spec n 1); congruence. Qed.

Lemma bc_ix_lt n i : (i < n)%nat -> bc_ix n i = i.
Proof. unfold bc_ix. destruct (Nat.eqb_spec n 1); intros; lia. Qed.

(** Operands of one shape are added entry by entry. *)
Lemma bc_rev_refl s : bc_rev s s = Some s.
Proof.
  induction s as [|n s IH]; [reflexivity|].
  cbn [bc_rev]. now rewrite bc_fit_refl, IH, bc_len_refl.
Qed.

Lemma bc_get_inb a idx : inb (shape a) idx = true -> bc_get a idx = get a idx.
Proof.
  unfold bc_get. generalize (shape a) as sh. intros sh H. f_equal.
  assert (Hlen : length idx = length sh).
  { revert idx H. induction sh as [|n sh IH]; intros [|i idx] H;
      try discriminate; [reflexivity|].
    cbn [inb] in H. apply andb_prop in H as [_ H].
    cbn [length]. now rewrite (IH idx H). }
  rewrite Hlen, Nat.sub_diag. cbn [skipn]. clear Hlen.
  revert idx H. induction sh as [|n sh IH]; intros [|i idx] H;
    try discriminate; [reflexivity|].
  cbn [inb] in H. apply andb_prop in H as [Hi H]. apply Nat.ltb_lt in Hi.
  cbn [combine map fst snd]. now rewrite (bc_ix_lt n i Hi), (IH idx H).
Qed.

Lemma np_add_same a b :
  shape a = shape b ->
  np_add a b = Ok (build (shape a) (fun idx => get a idx + get b idx)).
Proof.
  intros H. unfold np_add, bc_shape. rewrite <- H, bc_rev_refl, rev_involutive.
  f_equal. apply build_ext. intros idx Hidx.
  rewrite (bc_get_inb a idx Hidx). rewrite H in Hidx.
  now rewrite (bc_get_inb b idx Hidx).
Qed.

Lemma sumR_one f : sumR 1 f = f 0%nat.
Proof. simpl. ring. Qed.

Lemma sumR_scal_lr a b n f : sumR n (fun i => a * f i * b) = a * sumR n f * b.
Proof. induction n as [|n IH]; simpl; [ring | rewrite IH; ring]. Qed.

Lemma shape_build2 n m f : shape (build2 n m f) = [n; m].
Proof. reflexivity. Qed.

Lemma shape_build3 n m l f : shape (build3 n m l f) = [n; m; l].
Proof. reflexivity. Qed.

Lemma shape_build5 n1 n2 n3 n4 n5 f :
  shape (build5 n1 n2 n3 n4 n5 f) = [n1; n2; n3; n4; n5].
Proof. reflexivity. Qed.

Lemma narrow_last_shape3 t off w nr na n :
  shape t = [nr; na; n] -> shape (narrow_last t off w) = [nr; na; w].
Proof. intros H. unfold narrow_last. rewrite H. reflexivity. Qed.

Lemma narrow_last_get3 t off w nr na n r a p :
  shape t = [nr; na; n] -> (r < nr)%nat -> (a < na)%nat -> (p < w)%nat ->
  get3 (narrow_last t off w) r a p = get3 t r a (off + p).
Proof.
  intros H ? ? ?. unfold get3, narrow_last. rewrite H.
  rewrite get_build by solve_inb. reflexivity.
Qed.

Lemma narrow_last_shape2 t off w na n :
  shape t = [na; n] -> shape (narrow_last t off w) = [na; w].
Proof. intros H. unfold narrow_last. rewrite H. reflexivity. Qed.

Lemma narrow_last_get2 t off w na n a p :
  shape t = [na; n] -> (a < na)%nat -> (p < w)%nat ->
  get2 (narrow_last t off w) a p = get2 t a (off + p).
Proof.
  intros H ? ?. unfold get2, narrow_last. rewrite H.
  rewrite get_build by solve_inb. reflexivity.
Qed.

Lemma split_from_length t secs : forall off,
  length (split_from t off secs) = length secs.
Proof. induction secs as [|w secs IH]; intros off; simpl; [|rewrite IH]; reflexivity. Qed.

(** The [k]-th piece of a split is the window that starts where the
    preceding widths end. *)
Lemma split_from_nth t secs : forall off k d,
  (k < length secs)%nat ->
  nth k (split_from t off secs) d =
  narrow_last t (off + list_sum (firstn k secs)) (nth k secs 0%nat).
Proof.
  induction secs as [|w secs IH]; intros off k d Hk; simpl in *; [lia|].
  destruct k as [|k]; simpl.
  - now rewrite Nat.add_0_r.
  - rewrite IH by lia. now rewrite Nat.add_assoc.
Qed.

End EntryFacts.

(** Computes the shapes of nested [build]s. *)
Ltac norm_shapes :=
  repeat (rewrite ?shape_build2, ?shape_build3, ?shape_build5, ?shape_build;
          progress cbn [ix nth]).

(* ------------------------------------------------------------------ *)
(** ** The steps of the engine on well-shaped operands *)

Section StepFacts.

Variable syev : bool -> ndarray -> ndarray * ndarray.

Lemma einsum_pao_ok po nr na :
  is_block nr na po -> einsum_rap_saq_rsapq po po = Ok (pao_of po).
Proof.
  unfold is_block, einsum_rap_saq_rsapq, pao_of. intros ->.
  rewrite bc_fit_refl, bc_len_refl. cbn [ix nth]. f_equal.
  apply build5_ext. intros r s a p q _ _ Ha _ _.
  now rewrite (bc_ix_lt na a Ha).
Qed.

Lemma einsum_pdm_ok po d nr na :
  is_block nr na po -> shape d = [nr; nr] ->
  einsum_rap_rs_saq_apq po d po = Ok (pdm_of d po).
Proof.
  unfold is_block, einsum_rap_rs_saq_apq, pdm_of. intros -> ->.
  rewrite !bc_fit_refl, !bc_len_refl. cbn [ix nth andb]. f_equal.
  apply build3_ext. intros a p q Ha _ _.
  apply sumR_ext; intros r Hr. apply sumR_ext; intros s Hs.
  now rewrite (bc_ix_lt na a Ha), (bc_ix_lt nr r Hr), (bc_ix_lt nr s Hs).
Qed.

(** The contraction rejects a density matrix that is not of rank 2 or has
    an axis that does not fit the orbital axis of the block. *)
Lemma einsum_pdm_raise po d nr na :
  is_block nr na po -> dm_fits nr d = false ->
  einsum_rap_rs_saq_apq po d po = Raise RuntimeError.
Proof.
  unfold is_block, einsum_rap_rs_saq_apq, dm_fits. intros -> Hd.
  destruct (shape d) as [|n1 [|n2 [|? ?]]]; try reflexivity.
  now rewrite Hd.
Qed.

(** A density matrix with a broadcast axis gives the blocks of the matrix
    it is expanded to. *)
Lemma einsum_pdm_expand po d nr na :
  is_block nr na po -> dm_fits nr d = true ->
  einsum_rap_rs_saq_apq po d po = Ok (pdm_of (dm_expand nr d) po).
Proof.
  unfold is_block, einsum_rap_rs_saq_apq, dm_fits, pdm_of, dm_expand.
  intros -> Hd.
  destruct (shape d) as [|n1 [|n2 [|? ?]]]; try discriminate.
  rewrite Hd, bc_fit_refl, bc_len_refl. cbn [ix nth andb]. f_equal.
  apply build3_ext. intros a p q Ha _ _. rewrite (bc_ix_lt na a Ha).
  destruct (Nat.eqb_spec nr 1) as [->|Hnr].
  - change (bc_len 1 n1) with n1. change (bc_len 1 n2) with n2.
    rewrite !sumR_one, get2_build2 by lia.
    rewrite <- sumR_scal_lr. apply sumR_ext; intros r Hr.
    rewrite <- sumR_scal_lr. apply sumR_ext; intros s Hs.
    now rewrite (bc_ix_lt n1 r Hr), (bc_ix_lt n2 s Hs).
  - assert (Hl : forall m, bc_len nr m = nr).
    { intros m. unfold bc_len. now destruct (Nat.eqb_spec nr 1). }
    rewrite !Hl.
    apply sumR_ext; intros r Hr. apply sumR_ext; intros s Hs.
    rewrite get2_build2 by assumption.
    now rewrite (bc_ix_lt nr r Hr), (bc_ix_lt nr s Hs).
Qed.

Lemma pdm_shape po d nr na :
  is_block nr na po -> shape (pdm_of d po) = [na; width po; width po].
Proof. unfold is_block, pdm_of. now intros ->. Qed.

Lemma symeig_ok b m na n :
  shape m = [na; n; n] -> torch_symeig syev b m = Ok (eig_of syev b m).
Proof.
  unfold torch_symeig, eig_of. intros ->. now rewrite Nat.eqb_refl.
Qed.

Lemma eig_shape b m na n :
  shape m = [na; n; n] -> shape (fst (eig_of syev b m)) = [na; n].
Proof. unfold eig_of. now intros ->. Qed.

Lemma eigvec_shape m na n :
  shape m = [na; n; n] -> shape (snd (eig_of syev true m)) = [na; n; n].
Proof. unfold eig_of. now intros ->. Qed.

Lemma split_from_blocks t nr na n secs : forall off,
  shape t = [nr; na; n] ->
  Forall (is_block nr na) (split_from t off secs).
Proof.
  induction secs as [|w secs IH]; intros off H; simpl; constructor.
  - unfold is_block, width. now rewrite (narrow_last_shape3 _ _ _ _ _ _ H).
  - now apply IH.
Qed.

Lemma split_from_widths t nr na n secs : forall off,
  shape t = [nr; na; n] ->
  map width (split_from t off secs) = secs.
Proof.
  induction secs as [|w secs IH]; intros off H; simpl; [reflexivity|].
  rewrite IH by assumption. unfold width.
  now rewrite (narrow_last_shape3 _ _ _ _ _ _ H).
Qed.

(** What a successful construction establishes. *)
Lemma init_inv hf model bas self :
  DeepSCF_init hf model bas = Ok self ->
  base self = hf /\ net self = model /\ basis self = bas /\
  shell_sec self = make_shell_sec bas /\
  shape (t_proj_ovlp self) = [nao (mol hf); natm (mol hf); n_proj self] /\
  list_sum (shell_sec self) = n_proj self /\
  t_proj_shells self = split_from (t_proj_ovlp self) 0 (shell_sec self) /\
  t_proj_aos self = map pao_of (t_proj_shells self).
Proof.
  unfold DeepSCF_init. intros H.
  apply bind_ok in H as (ovlp & Hov & H).
  apply bind_ok in H as (shells & Hsp & H).
  apply bind_ok in H as (aos & Hao & H).
  injection H as <-. unfold n_proj; simpl.
  unfold gen_proj_ovlp in Hov.
  destruct (natm (mol hf) =? 0)%nat; [discriminate|].
  unfold np_reshape in Hov.
  destruct (_ =? _)%nat in Hov; [|discriminate].
  injection Hov as <-. simpl in *.
  unfold torch_split in Hsp; simpl in Hsp.
  destruct (Nat.eqb_spec (list_sum (make_shell_sec bas))
              (ix (shape (intor_cross (mol hf) bas)) 1 / natm (mol hf)))
    as [Hsum|]; [|discriminate].
  injection Hsp as <-.
  repeat split; try assumption.
  match type of Hao with mapM _ ?l = _ =>
    assert (Hb : Forall (is_block (nao (mol hf)) (natm (mol hf))) l)
      by (eapply split_from_blocks; reflexivity)
  end.
  rewrite (mapM_map _ pao_of) in Hao.
  - now injection Hao as <-.
  - intros po Hin. rewrite Forall_forall in Hb.
    eapply einsum_pao_ok. now apply Hb.
Qed.

End StepFacts.

(* ================================================================== *)
(** * The shell partition (section 4.2) *)

Section Partition.

Lemma list_sum_repeat x n : list_sum (repeat x n) = (n * x)%nat.
Proof. induction n as [|n IH]; simpl; [reflexivity | rewrite IH; lia]. Qed.

Lemma make_shell_sec_cons b bas :
  make_shell_sec (b :: bas)
  = repeat (2 * ang b + 1)%nat (length (rows b)) ++ make_shell_sec bas.
Proof. reflexivity. Qed.

Lemma shell_sec_total bas :
  list_sum (make_shell_sec bas) = list_sum (spec_shell_widths bas).
Proof.
  induction bas as [|b bas IH]; [reflexivity|].
  rewrite make_shell_sec_cons, list_sum_app, list_sum_repeat, IH.
  unfold spec_shell_widths. cbn [map].
  change (list_sum (?x :: ?l)) with (x + list_sum l)%nat. lia.
Qed.

Lemma shell_sec_length bas :
  length (make_shell_sec bas) = list_sum (map (fun b => length (rows b)) bas).
Proof.
  induction bas as [|b bas IH]; [reflexivity|].
  rewrite make_shell_sec_cons, length_app, repeat_length, IH. reflexivity.
Qed.

(** Every section width is [2l+1] for a shell [l] of the basis. *)
Lemma shell_sec_odd bas w :
  In w (make_shell_sec bas) -> exists b, In b bas /\ w = (2 * ang b + 1)%nat.
Proof.
  unfold make_shell_sec. intros H.
  apply in_concat in H as (l & Hl & Hw).
  apply in_map_iff in Hl as (b & <- & Hb).
  apply repeat_spec in Hw. eauto.
Qed.

(** C2, as the code does it: the projection tensor is cut into one
    contiguous block per radial row of every shell, in basis order (the
    rows of a shell are consecutive), each block [2l+1] columns wide; the
    blocks of a shell with [n] rows cover [(2l+1) * n] columns together, and
    the blocks cover the whole last axis. *)
Theorem C2_partition_per_radial_row hf model bas self :
  DeepSCF_init hf model bas = Ok self ->
  map width (t_proj_shells self)
    = flat_map (fun b => repeat (2 * ang b + 1)%nat (length (rows b))) bas
  /\ length (t_proj_shells self) = list_sum (map (fun b => length (rows b)) bas)
  /\ list_sum (map width (t_proj_shells self)) = list_sum (spec_shell_widths bas)
  /\ list_sum (map width (t_proj_shells self)) = n_proj self
  /\ Forall (is_block (nao (mol hf)) (natm (mol hf))) (t_proj_shells self)
  /\ forall k r a p,
       (k < length (t_proj_shells self))%nat ->
       (r < nao (mol hf))%nat -> (a < natm (mol hf))%nat ->
       (p < width (nth k (t_proj_shells self) (zeros [])))%nat ->
       get3 (nth k (t_proj_shells self) (zeros [])) r a p
       = get3 (t_proj_ovlp self) r a
           (sec_start (map width (t_proj_shells self)) k + p).
Proof.
  intros H.
  destruct (init_inv _ _ _ _ H) as (_ & _ & _ & Hsec & Hsh & Hsum & Hsp & _).
  assert (Hw : map width (t_proj_shells self) = make_shell_sec bas).
  { rewrite Hsp, (split_from_widths _ _ _ _ _ _ Hsh). exact Hsec. }
  repeat split.
  - rewrite Hw. unfold make_shell_sec. now rewrite flat_map_concat_map.
  - rewrite <- shell_sec_length, <- Hw. now rewrite length_map.
  - rewrite Hw. apply shell_sec_total.
  - rewrite Hw, <- Hsec. exact Hsum.
  - rewrite Hsp. eapply split_from_blocks. exact Hsh.
  - intros k r a p Hk Hr Ha Hp.
    rewrite Hw, <- Hsec. revert Hk Hp. rewrite Hsp.
    rewrite split_from_length. intros Hk.
    rewrite split_from_nth by assumption. simpl.
    unfold width at 1. rewrite (narrow_last_shape3 _ _ _ _ _ _ Hsh). simpl.
    intros Hp. now rewrite (narrow_last_get3 _ _ _ _ _ _ _ _ _ Hsh).
Qed.

Lemma C2_partition_witness :
  exists self, DeepSCF_init toy_hf test_model toy_basis = Ok self
    /\ map width (t_proj_shells self) = [1; 1]%nat
    /\ length (t_proj_shells self) = 2%nat.
Proof.
  eexists. split; [reflexivity|].
  pose proof (C2_partition_per_radial_row toy_hf test_model toy_basis _ eq_refl)
    as (Hw & Hl & _).
  split; [exact Hw | exact Hl].
Defined.

(** C2 as stated fails: with the default basis (three shells of twelve
    rows each) the split yields 36 blocks of widths 1, 3 and 5, not the
    three blocks of widths 12, 36 and 60. *)
Lemma C2_counterexample :
  exists self,
    DeepSCF_init one_hf test_model DEFAULT_BASIS = Ok self
    /\ spec_shell_widths DEFAULT_BASIS = [12; 36; 60]%nat
    /\ length (t_proj_shells self) = 36%nat
    /\ map width (t_proj_shells self) <> spec_shell_widths DEFAULT_BASIS.
Proof.
  eexists. split; [reflexivity|].
  split; [reflexivity|]. split; [reflexivity|].
  intro H. apply (f_equal (@length nat)) in H. vm_compute in H. discriminate.
Qed.

End Partition.

(* ------------------------------------------------------------------ *)
(** ** Concatenation, stacking and summation *)

Section CatStackFacts.

Lemma cat_pick_nth lead d : forall ts k j,
  (k < length ts)%nat -> (j < width (nth k ts d))%nat ->
  cat_pick ts lead (sec_start (map width ts) k + j) = get (nth k ts d) (lead ++ [j]).
Proof.
  induction ts as [|t ts IH]; intros k j Hk Hj; simpl in Hk; [lia|].
  destruct k as [|k]; simpl in *.
  - unfold sec_start; simpl.
    now rewrite (proj2 (Nat.ltb_lt _ _) Hj).
  - unfold sec_start; simpl.
    destruct (Nat.ltb_spec (width t + list_sum (firstn k (map width ts)) + j) (width t));
      [lia|].
    replace (width t + list_sum (firstn k (map width ts)) + j - width t)%nat
      with (sec_start (map width ts) k + j)%nat by (unfold sec_start; lia).
    apply IH; [lia | assumption].
Qed.

Lemma sec_start_lt secs k j :
  (k < length secs)%nat -> (j < nth k secs 0)%nat ->
  (sec_start secs k + j < list_sum secs)%nat.
Proof.
  unfold sec_start. revert k.
  induction secs as [|w secs IH]; intros k Hk Hj; simpl in *; [lia|].
  destruct k as [|k]; simpl; [lia|].
  specialize (IH k). lia.
Qed.

Lemma cat_ok na ts :
  ts <> [] -> Forall (is_eigs na) ts ->
  torch_cat_last ts = Ok (cat_of ts)
  /\ shape (cat_of ts) = [na; list_sum (map width ts)].
Proof.
  intros Hne Hall. destruct ts as [|t0 ts]; [congruence|].
  unfold torch_cat_last, cat_of.
  assert (H0 : shape t0 = [na; width t0]) by now inversion Hall.
  cbn [hd]. rewrite H0. cbn [removelast app].
  rewrite (proj2 (forallb_forall _ _)); [split; reflexivity|].
  intros t Ht. rewrite Forall_forall in Hall. specialize (Hall t Ht).
  unfold is_eigs in Hall. unfold ndim. rewrite Hall. simpl.
  apply shape_eqb_refl.
Qed.

Lemma cat_get na ts k a j d :
  Forall (is_eigs na) ts ->
  (k < length ts)%nat -> (a < na)%nat -> (j < width (nth k ts d))%nat ->
  get2 (cat_of ts) a (sec_start (map width ts) k + j) = get2 (nth k ts d) a j.
Proof.
  intros Hall Hk Ha Hj.
  destruct ts as [|t0 ts]; [simpl in Hk; lia|].
  assert (H0 : shape t0 = [na; width t0]) by now inversion Hall.
  unfold get2, cat_of. cbn [hd]. rewrite H0. cbn [removelast app].
  rewrite get_build.
  - cbn [removelast last]. now rewrite (cat_pick_nth [a] d).
  - assert (sec_start (map width (t0 :: ts)) k + j
            < list_sum (map width (t0 :: ts)))%nat.
    { apply sec_start_lt; [now rewrite length_map|].
      rewrite (nth_indep _ 0%nat (width d)) by now rewrite length_map.
      now rewrite map_nth. }
    cbn [inb].
    rewrite (proj2 (Nat.ltb_lt _ _) Ha), (proj2 (Nat.ltb_lt _ _) H). reflexivity.
Qed.

Lemma stack_ok sh ts :
  ts <> [] -> Forall (fun t => shape t = sh) ts ->
  torch_stack ts = Ok (stack_of ts)
  /\ shape (sum0 (stack_of ts)) = sh.
Proof.
  intros Hne Hall. destruct ts as [|t0 ts]; [congruence|].
  unfold torch_stack, stack_of, sum0. cbn [hd].
  assert (H0 : shape t0 = sh) by now inversion Hall.
  rewrite (proj2 (forallb_forall _ _)).
  - split; [reflexivity|]. now rewrite shape_build.
  - intros t Ht. rewrite Forall_forall in Hall.
    rewrite (Hall t Ht), H0. apply shape_eqb_refl.
Qed.

Lemma sumR_shift n f : sumR (S n) f = f 0%nat + sumR n (fun i => f (S i)).
Proof.
  induction n as [|n IH]; [simpl; lra|].
  change (sumR (S (S n)) f) with (sumR (S n) f + f (S n)).
  rewrite IH. simpl. lra.
Qed.

Lemma sumR_nth_sum_at ts idx :
  sumR (length ts) (fun k => get (nth k ts (zeros [])) idx) = sum_at ts idx.
Proof.
  induction ts as [|t ts IH]; [reflexivity|].
  cbn [length]. rewrite sumR_shift. simpl. now rewrite IH.
Qed.

(** Entries of [torch.stack(ts).sum(0)]. *)
Lemma sum0_stack_get sh ts idx :
  Forall (fun t => shape t = sh) ts -> inb sh idx = true ->
  get (sum0 (stack_of ts)) idx = sum_at ts idx.
Proof.
  intros Hall Hin. destruct ts as [|t0 ts].
  - reflexivity.
  - assert (H0 : shape t0 = sh) by now inversion Hall.
    unfold sum0. rewrite get_build.
    + rewrite <- sumR_nth_sum_at. unfold stack_of at 1. cbn [shape hd].
      apply sumR_ext. intros k Hk. unfold stack_of. cbn [hd].
      rewrite get_build; [reflexivity|].
      rewrite H0. cbn [inb]. rewrite (proj2 (Nat.ltb_lt _ _) Hk). exact Hin.
    + unfold stack_of. cbn [shape tl hd]. now rewrite H0.
Qed.

End CatStackFacts.

(* ------------------------------------------------------------------ *)
(** ** The descriptor path of a constructed engine *)

Section Pipeline.

Variable syev : bool -> ndarray -> ndarray * ndarray.
Variables (hf : RHF) (model : QCNet) (bas : list Shell) (self : DeepSCF).
Hypothesis Hinit : DeepSCF_init hf model bas = Ok self.

Let nr := nao (mol hf).
Let na := natm (mol hf).

Lemma shells_blocks : Forall (is_block nr na) (t_proj_shells self).
Proof.
  destruct (init_inv _ _ _ _ Hinit) as (_ & _ & _ & _ & Hsh & _ & Hsp & _).
  rewrite Hsp. eapply split_from_blocks. exact Hsh.
Qed.

Lemma shells_widths : list_sum (map width (t_proj_shells self)) = n_proj self.
Proof.
  destruct (init_inv _ _ _ _ Hinit) as (_ & _ & _ & _ & Hsh & Hsum & Hsp & _).
  rewrite Hsp, (split_from_widths _ _ _ _ _ _ Hsh). exact Hsum.
Qed.

Lemma proj_dms_ok d :
  shape d = [nr; nr] ->
  t_proj_dms self d = Ok (map (pdm_of d) (t_proj_shells self)).
Proof.
  intros Hd. unfold t_proj_dms. apply mapM_map. intros po Hin.
  pose proof shells_blocks as Hb. rewrite Forall_forall in Hb.
  eapply einsum_pdm_ok; [now apply Hb | exact Hd].
Qed.

Lemma proj_dms_expand d :
  dm_fits nr d = true ->
  t_proj_dms self d = Ok (map (pdm_of (dm_expand nr d)) (t_proj_shells self)).
Proof.
  intros Hd. unfold t_proj_dms. apply mapM_map. intros po Hin.
  pose proof shells_blocks as Hb. rewrite Forall_forall in Hb.
  eapply einsum_pdm_expand; [now apply Hb | exact Hd].
Qed.

Lemma proj_dms_raise d :
  dm_fits nr d = false -> t_proj_shells self <> [] ->
  t_proj_dms self d = Raise RuntimeError.
Proof.
  intros Hd Hne. unfold t_proj_dms. pose proof shells_blocks as Hb.
  destruct (t_proj_shells self) as [|po shells]; [congruence|].
  apply mapM_raise. eapply einsum_pdm_raise; [|exact Hd].
  inversion Hb; eassumption.
Qed.

Lemma symeig_all_ok b d :
  mapM (torch_symeig syev b) (map (pdm_of d) (t_proj_shells self))
  = Ok (map (eig_of syev b) (map (pdm_of d) (t_proj_shells self))).
Proof.
  apply mapM_map. intros m Hin. apply in_map_iff in Hin as (po & <- & Hpo).
  pose proof shells_blocks as Hb. rewrite Forall_forall in Hb.
  eapply symeig_ok. eapply pdm_shape. now apply Hb.
Qed.

Lemma eigvals_is_eigs b d : Forall (is_eigs na) (eigvals_of syev self b d).
Proof.
  unfold eigvals_of. rewrite !map_map. apply Forall_forall. intros t Hin.
  apply in_map_iff in Hin as (po & <- & Hpo).
  pose proof shells_blocks as Hb. rewrite Forall_forall in Hb.
  unfold is_eigs, width.
  erewrite eig_shape by (eapply pdm_shape; now apply Hb). reflexivity.
Qed.

Lemma eigvals_widths b d :
  map width (eigvals_of syev self b d) = map width (t_proj_shells self).
Proof.
  unfold eigvals_of. rewrite !map_map. apply map_ext_in. intros po Hpo.
  pose proof shells_blocks as Hb. rewrite Forall_forall in Hb.
  unfold width at 1.
  erewrite eig_shape by (eapply pdm_shape; now apply Hb). reflexivity.
Qed.

Lemma eigvals_nonempty b d : t_proj_shells self <> [] -> eigvals_of syev self b d <> [].
Proof.
  unfold eigvals_of. destruct (t_proj_shells self); [congruence | discriminate].
Qed.

Lemma make_eig_ok d :
  shape d = [nr; nr] -> t_proj_shells self <> [] ->
  make_eig syev self (Some d) = Ok (cat_of (eigvals_of syev self false d)).
Proof.
  intros Hd Hne. unfold make_eig.
  rewrite proj_dms_ok by exact Hd. cbn [bind]. rewrite symeig_all_ok. cbn [bind].
  apply cat_ok with (na := na);
    [now apply eigvals_nonempty | apply eigvals_is_eigs].
Qed.

Lemma t_ceig_ok d :
  shape d = [nr; nr] -> t_proj_shells self <> [] ->
  t_ceig syev self d
  = Ok (unsqueeze0 (cat_of (eigvals_of syev self true d)),
        map (eig_of syev true) (map (pdm_of d) (t_proj_shells self))).
Proof.
  intros Hd Hne. unfold t_ceig.
  rewrite proj_dms_ok by exact Hd. cbn [bind]. rewrite symeig_all_ok. cbn [bind].
  fold (eigvals_of syev self true d).
  destruct (cat_ok na (eigvals_of syev self true d)) as [-> _];
    [now apply eigvals_nonempty | apply eigvals_is_eigs | reflexivity].
Qed.

(** The einsum of the projection is the matrix product of the
    specification, atom by atom. *)
Lemma slice_pdm_spec d po a :
  is_block nr na po -> shape d = [nr; nr] -> (a < na)%nat ->
  slice0 (pdm_of d po) a = spec_projected_block po d a.
Proof.
  intros Hb Hd Ha. unfold is_block in Hb.
  unfold slice0, spec_projected_block, matmul, transpose, atom_proj, pdm_of.
  rewrite Hb, Hd. norm_shapes.
  apply build2_ext. intros p q Hp Hq.
  rewrite get3_build3 by assumption.
  rewrite sumR_swap. apply sumR_ext. intros s Hs.
  rewrite get2_build2 by assumption.
  rewrite get2_build2 by assumption.
  rewrite <- sumR_scal_r. apply sumR_ext. intros r Hr.
  rewrite get2_build2 by assumption.
  now rewrite get2_build2 by assumption.
Qed.

End Pipeline.

(* ------------------------------------------------------------------ *)
(** ** The reconstruction of the potential *)

Section ReconstructFacts.

Variables nr na : nat.

Lemma pao_shape po :
  is_block nr na po -> shape (pao_of po) = [nr; nr; na; width po; width po].
Proof. unfold is_block, pao_of. intros ->. reflexivity. Qed.

Lemma einsum_vc_ok po g :
  fits nr na po g ->
  einsum_rsapq_apq_rs (pao_of po) g = Ok (shell_vc_of (pao_of po) g).
Proof.
  intros [Hb Hg]. unfold einsum_rsapq_apq_rs, shell_vc_of.
  rewrite (pao_shape _ Hb), Hg.
  rewrite !bc_fit_refl, !bc_len_refl. cbn [ix nth andb]. f_equal.
  apply build2_ext. intros r s _ _.
  apply sumR_ext; intros a Ha. apply sumR_ext; intros p Hp.
  apply sumR_ext; intros q Hq.
  now rewrite (bc_ix_lt _ a Ha), (bc_ix_lt _ p Hp), (bc_ix_lt _ q Hq).
Qed.

Lemma shell_vc_shape po g :
  is_block nr na po -> shape (shell_vc_of (pao_of po) g) = [nr; nr].
Proof. intros Hb. unfold shell_vc_of. now rewrite (pao_shape _ Hb). Qed.

Lemma shell_vc_get po g r s :
  is_block nr na po -> (r < nr)%nat -> (s < nr)%nat ->
  get2 (shell_vc_of (pao_of po) g) r s = contrib po g r s.
Proof.
  intros Hb Hr Hs. unfold shell_vc_of, contrib.
  rewrite (pao_shape _ Hb). cbn [ix nth].
  rewrite get2_build2 by assumption.
  unfold is_block in Hb. rewrite Hb. cbn [ix nth].
  apply sumR_ext; intros a Ha. apply sumR_ext; intros p Hp.
  apply sumR_ext; intros q Hq.
  unfold pao_of. rewrite Hb. cbn [ix nth].
  now rewrite get5_build5 by assumption.
Qed.

Lemma shell_vcs_ok shells grads :
  Forall2 (fits nr na) shells grads ->
  mapM (fun pg => einsum_rsapq_apq_rs (fst pg) (snd pg))
       (combine (map pao_of shells) grads)
  = Ok (svcs_of shells grads).
Proof.
  induction 1 as [|po g shells grads Hfit _ IH]; [reflexivity|].
  cbn [map combine mapM fst snd]. rewrite (einsum_vc_ok _ _ Hfit).
  cbn [bind]. rewrite IH. reflexivity.
Qed.

Lemma svcs_shape shells grads :
  Forall2 (fits nr na) shells grads ->
  Forall (fun t => shape t = [nr; nr]) (svcs_of shells grads).
Proof.
  induction 1 as [|po g shells grads [Hb _] _ IH]; constructor.
  - now apply shell_vc_shape.
  - exact IH.
Qed.

Lemma svcs_sum shells grads r s :
  Forall2 (fits nr na) shells grads -> (r < nr)%nat -> (s < nr)%nat ->
  sum_at (svcs_of shells grads) [r; s] = total_contrib shells grads r s.
Proof.
  intros H Hr Hs.
  induction H as [|po g shells grads [Hb _] _ IH]; [reflexivity|].
  cbn [svcs_of combine map sum_at fold_right total_contrib fst snd].
  fold (svcs_of shells grads). fold (sum_at (svcs_of shells grads) [r; s]).
  rewrite IH. f_equal.
  now apply (shell_vc_get po g r s Hb).
Qed.

(** The last three statements of [t_get_ec] on gradients that fit. *)
Lemma reconstruct_ok shells grads :
  shells <> [] -> Forall2 (fits nr na) shells grads ->
  reconstruct (map pao_of shells) grads = Ok (vc_of shells grads)
  /\ shape (vc_of shells grads) = [nr; nr]
  /\ wf (vc_of shells grads)
  /\ forall r s, (r < nr)%nat -> (s < nr)%nat ->
       get2 (vc_of shells grads) r s = total_contrib shells grads r s.
Proof.
  intros Hne H.
  assert (Hsv : svcs_of shells grads <> []).
  { destruct H; [congruence | discriminate]. }
  destruct (stack_ok [nr; nr] _ Hsv (svcs_shape _ _ H)) as [Hst Hsh].
  unfold reconstruct. rewrite (shell_vcs_ok _ _ H). cbn [bind].
  rewrite Hst. cbn [bind]. repeat split.
  - exact Hsh.
  - apply wf_build.
  - intros r s Hr Hs. unfold vc_of, get2.
    rewrite (sum0_stack_get [nr; nr]) by (try apply svcs_shape; auto; solve_inb).
    now apply svcs_sum.
Qed.

(** [P_a . G_a . P_a^T] summed over the atoms, as the specification writes
    the contribution of a shell. *)
Lemma contrib_spec po g r s :
  fits nr na po g -> (r < nr)%nat -> (s < nr)%nat ->
  contrib po g r s = spec_shell_potential po g r s.
Proof.
  intros [Hb Hg] Hr Hs. unfold is_block in Hb.
  unfold contrib, spec_shell_potential. rewrite Hb. cbn [ix nth].
  apply sumR_ext; intros a Ha.
  unfold matmul, transpose, atom_proj, slice0. rewrite Hb, Hg. norm_shapes.
  rewrite get2_build2 by assumption.
  rewrite sumR_swap. apply sumR_ext; intros q Hq.
  rewrite !get2_build2 by assumption.
  rewrite <- sumR_scal_r. apply sumR_ext; intros p Hp.
  rewrite !get2_build2 by assumption. ring.
Qed.

Lemma total_contrib_spec shells grads r s :
  Forall2 (fits nr na) shells grads -> (r < nr)%nat -> (s < nr)%nat ->
  total_contrib shells grads r s
  = fold_right (fun pg acc => spec_shell_potential (fst pg) (snd pg) r s + acc) 0
      (combine shells grads).
Proof.
  intros H Hr Hs. induction H as [|po g shells grads Hfit _ IH]; [reflexivity|].
  cbn [total_contrib combine fold_right fst snd].
  now rewrite IH, (contrib_spec po g r s Hfit).
Qed.

(** Symmetric gradient blocks give a symmetric potential. *)
Lemma contrib_sym po g r s :
  fits nr na po g -> sym_block g ->
  contrib po g r s = contrib po g s r.
Proof.
  intros [Hb Hg] Hsym. unfold is_block in Hb. unfold sym_block in Hsym.
  rewrite Hg in Hsym. cbn [ix nth] in Hsym.
  unfold contrib. rewrite Hb. cbn [ix nth].
  apply sumR_ext; intros a Ha.
  rewrite sumR_swap. apply sumR_ext; intros p Hp. apply sumR_ext; intros q Hq.
  rewrite (Hsym a q p) by assumption. ring.
Qed.

Lemma total_contrib_sym shells grads r s :
  Forall2 (fits nr na) shells grads -> Forall sym_block grads ->
  total_contrib shells grads r s = total_contrib shells grads s r.
Proof.
  induction 1 as [|po g shells grads Hfit _ IH]; intros Hs; [reflexivity|].
  inversion Hs as [|? ? Hg Hgs]; subst.
  cbn [total_contrib]. now rewrite IH, (contrib_sym po g r s Hfit Hg).
Qed.

(** Vanishing gradient blocks give a vanishing potential. *)
Lemma total_contrib_zero shells grads r s :
  Forall (fun g => forall a p q, get3 g a p q = 0) grads ->
  total_contrib shells grads r s = 0.
Proof.
  intros H. revert shells.
  induction H as [|g grads Hg _ IH]; intros [|po shells]; try reflexivity.
  cbn [total_contrib]. rewrite IH. unfold contrib.
  rewrite sumR_ext with (g := fun _ => 0); [rewrite sumR_zero; lra|].
  intros a _. rewrite sumR_ext with (g := fun _ => 0); [apply sumR_zero|].
  intros p _. rewrite sumR_ext with (g := fun _ => 0); [apply sumR_zero|].
  intros q _. rewrite Hg. ring.
Qed.

End ReconstructFacts.

(* ------------------------------------------------------------------ *)
(** ** The gradients reverse-mode differentiation returns *)

Section GradientFacts.

Variable syev : bool -> ndarray -> ndarray * ndarray.

Lemma autograd_grads_from g eigs : forall off,
  map (fun ge => symeig_backward (snd (snd ge)) (fst ge))
      (combine (split_from g off (map (fun e => width (fst e)) eigs)) eigs)
  = grads_from g off eigs.
Proof.
  induction eigs as [|e eigs IH]; intros off; [reflexivity|].
  cbn [map split_from combine grads_from fst snd]. now rewrite IH.
Qed.

Lemma symeig_backward_sym v glam : sym_block (symeig_backward v glam).
Proof.
  unfold sym_block, symeig_backward. norm_shapes. intros a p q Ha Hp Hq.
  rewrite !get3_build3 by assumption.
  apply sumR_ext; intros j _. ring.
Qed.

Lemma grads_from_sym g eigs : forall off, Forall sym_block (grads_from g off eigs).
Proof.
  induction eigs as [|e eigs IH]; intros off; constructor.
  - apply symeig_backward_sym.
  - apply IH.
Qed.

Lemma grads_from_fits nr na d g shells : forall off,
  Forall (is_block nr na) shells ->
  Forall2 (fits nr na) shells
    (grads_from g off (map (eig_of syev true) (map (pdm_of d) shells))).
Proof.
  induction shells as [|po shells IH]; intros off Hb; [constructor|].
  inversion Hb as [|? ? Hpo Hrest]; subst.
  cbn [map grads_from]. constructor; [|now apply IH].
  split; [exact Hpo|].
  unfold symeig_backward.
  rewrite (eigvec_shape syev _ _ _ (pdm_shape po d _ _ Hpo)). reflexivity.
Qed.

Lemma get_all_zero t idx : all_zero t -> get t idx = 0.
Proof.
  unfold all_zero, get. intros H.
  destruct (Nat.lt_ge_cases (ravel (shape t) idx) (length (data t))) as [Hlt|Hge].
  - rewrite Forall_forall in H. apply H. now apply nth_In.
  - now apply nth_overflow.
Qed.

Lemma all_zero_build sh f : (forall idx, f idx = 0) -> all_zero (build sh f).
Proof.
  intros H. unfold all_zero, build. cbn [data].
  apply Forall_forall. intros x Hx.
  apply in_map_iff in Hx as (k & <- & _). apply H.
Qed.

Lemma grads_from_zero g eigs : forall off,
  all_zero g ->
  Forall (fun gd => forall a p q, get3 gd a p q = 0) (grads_from g off eigs).
Proof.
  induction eigs as [|e eigs IH]; intros off Hz; constructor; [|now apply IH].
  intros a p q. unfold get3. apply get_all_zero.
  unfold symeig_backward, build3. apply all_zero_build. intros idx.
  rewrite sumR_ext with (g := fun _ => 0); [apply sumR_zero|].
  intros j _. unfold get2 at 1.
  rewrite (get_all_zero (narrow_last g off (width (fst e)))).
  - ring.
  - unfold narrow_last. apply all_zero_build. intros i. now apply get_all_zero.
Qed.

Variables (hf : RHF) (model : QCNet) (bas : list Shell) (self : DeepSCF).
Hypothesis Hinit : DeepSCF_init hf model bas = Ok self.

Lemma grad_dms_fits d :
  Forall2 (fits (nao (mol hf)) (natm (mol hf))) (t_proj_shells self)
          (grad_dms_of syev self d).
Proof.
  unfold grad_dms_of, eigpairs_of. apply grads_from_fits.
  exact (shells_blocks _ _ _ _ Hinit).
Qed.

(** [t_get_ec] on a density matrix of the expected size. *)
Lemma t_get_ec_ok d :
  shape d = [nao (mol hf); nao (mol hf)] -> t_proj_shells self <> [] ->
  t_get_ec syev self d
  = Ok (forward (net self) (ceig_of syev self d),
        vc_of (t_proj_shells self) (grad_dms_of syev self d)).
Proof.
  intros Hd Hne. unfold t_get_ec.
  rewrite (t_ceig_ok syev _ _ _ _ Hinit d Hd Hne). cbn [bind].
  unfold autograd_grad. rewrite autograd_grads_from.
  fold (eigpairs_of syev self d). fold (ceig_of syev self d).
  fold (grad_dms_of syev self d).
  destruct (init_inv _ _ _ _ Hinit) as (_ & _ & _ & _ & _ & _ & _ & Haos).
  rewrite Haos.
  destruct (reconstruct_ok _ _ _ _ Hne (grad_dms_fits d)) as [-> _].
  reflexivity.
Qed.

End GradientFacts.

(* ================================================================== *)
(** * The toy engine, evaluated

    One atom, two orbitals, one s shell with two radial rows: the two
    blocks of the projection tensor are the columns [(1, 3)] and [(2, 4)],
    the density matrix is [[2, 1], [1, 3]]. *)

(** Evaluates the arrays of a closed instance, down to real arithmetic. *)
Ltac eval_arrays := cbv -[IZR Rplus Rmult Rinv Rminus Ropp Rdiv Rlt_dec].

Lemma toy_init : DeepSCF_init toy_hf test_model toy_basis = Ok toy_self.
Proof. reflexivity. Qed.

Example default_shell_sec :
  make_shell_sec DEFAULT_BASIS = repeat 1%nat 12 ++ repeat 3%nat 12 ++ repeat 5%nat 12.
Proof. reflexivity. Qed.

Example toy_shells :
  t_proj_shells toy_self = [mk_nd [2; 1; 1]%nat [1; 3]; mk_nd [2; 1; 1]%nat [2; 4]].
Proof. reflexivity. Qed.

(** The descriptors are [p^T D p] for the two columns [p]. *)
Example toy_make_eig :
  make_eig syev_diag toy_self (Some toy_dm) = Ok (mk_nd [1; 2]%nat [35; 72]).
Proof. eval_arrays. do 2 f_equal. repeat (f_equal; try ring). Qed.

(** With the energy [(35 + 72) / 1000] the potential is the sum of the two
    outer products [p p^T], over 1000. *)
Example toy_t_get_ec :
  t_get_ec syev_diag toy_self toy_dm
  = Ok (107 / 1000, mk_nd [2; 2]%nat [5 / 1000; 11 / 1000; 11 / 1000; 25 / 1000]).
Proof. eval_arrays. do 2 f_equal. - field. - repeat (f_equal; try field). Qed.

Example toy_energy_elec :
  energy_elec syev_diag toy_self (Some toy_dm) None None
  = Ok (5 + 107 / 1000, 107 / 1000).
Proof. eval_arrays. do 2 f_equal; field. Qed.

(* ================================================================== *)
(** * The descriptors (section 4.3) *)

Section Descriptors.

Variable syev : bool -> ndarray -> ndarray * ndarray.











End Descriptors.



Section DescriptorContents.

Variable syev : bool -> ndarray -> ndarray * ndarray.

Lemma get3_unsqueeze0 t a j : get3 (unsqueeze0 t) 0 a j = get2 t a j.
Proof. reflexivity. Qed.

Lemma shells_row_widths hf model bas self :
  DeepSCF_init hf model bas = Ok self ->
  map width (t_proj_shells self) = make_shell_sec bas.
Proof.
  intros H.
  destruct (init_inv _ _ _ _ H) as (_ & _ & _ & Hsec & Hsh & _ & Hsp & _).
  rewrite Hsp, (split_from_widths _ _ _ _ _ _ Hsh). exact Hsec.
Qed.

(** The projected block of a symmetric density matrix is a symmetric
    square matrix of the width of the block. *)
Lemma spec_block_sym hf po d a :
  is_block (nao (mol hf)) (natm (mol hf)) po ->
  shape d = [nao (mol hf); nao (mol hf)] -> sym_matrix d ->
  (a < natm (mol hf))%nat ->
  shape (spec_projected_block po d a) = [width po; width po]
  /\ sym_matrix (spec_projected_block po d a).
Proof.
  intros Hb Hd Hsym Ha.
  rewrite <- (slice_pdm_spec hf d po a Hb Hd Ha).
  unfold sym_matrix in Hsym. rewrite Hd in Hsym. cbn [ix nth] in Hsym.
  unfold slice0, sym_matrix.
  rewrite (pdm_shape po d _ _ Hb). cbn [ix nth]. norm_shapes.
  split; [reflexivity|]. cbn [ix nth]. intros r s Hr Hs.
  rewrite !get2_build2 by assumption.
  unfold pdm_of. unfold is_block in Hb. rewrite Hb. cbn [ix nth].
  rewrite !get3_build3 by assumption.
  rewrite sumR_swap. apply sumR_ext; intros i Hi. apply sumR_ext; intros j Hj.
  rewrite (Hsym j i) by assumption. ring.
Qed.

(** C3, as the code does it: the blocks are those of the split, one per
    radial row of every shell and [2l+1] wide.  For a density matrix of the
    expected size, [make_eig] returns an atoms x total-width array, and
    [t_get_ec] builds the same kind of array (with a batch axis in front)
    for the network; the segment of row [a] that belongs to block [k] holds
    what the eigen-solver returns as eigenvalues of [M_a = P_a^T . D . P_a]
    (the eigenvectors are not part of it), and the segments follow the order
    of the blocks.  For a symmetric density matrix every [M_a] is a
    symmetric square matrix, so a solver that returns the eigenvalues of
    symmetric matrices in ascending order makes every segment ascending. *)
Theorem C3_descriptor_extraction hf model bas self d :
  DeepSCF_init hf model bas = Ok self ->
  t_proj_shells self <> [] ->
  shape d = [nao (mol hf); nao (mol hf)] ->
  map width (t_proj_shells self)
    = flat_map (fun b => repeat (2 * ang b + 1)%nat (length (rows b))) bas
  /\ exists E C eigs,
    make_eig syev self (Some d) = Ok E
    /\ t_ceig syev self d = Ok (C, eigs)
    /\ shape E = [natm (mol hf); n_proj self] /\ wf E
    /\ shape C = [1%nat; natm (mol hf); n_proj self]
    /\ (forall k a j,
          (k < length (t_proj_shells self))%nat -> (a < natm (mol hf))%nat ->
          (j < width (nth k (t_proj_shells self) (zeros [])))%nat ->
          get2 E a (sec_start (map width (t_proj_shells self)) k + j)
          = get1 (fst (syev false
                   (spec_projected_block (nth k (t_proj_shells self) (zeros [])) d a))) j
          /\ get3 C 0 a (sec_start (map width (t_proj_shells self)) k + j)
             = get1 (fst (syev true
                   (spec_projected_block (nth k (t_proj_shells self) (zeros [])) d a))) j)
    /\ (sym_matrix d ->
        (forall k a,
           (k < length (t_proj_shells self))%nat -> (a < natm (mol hf))%nat ->
           let po := nth k (t_proj_shells self) (zeros []) in
           shape (spec_projected_block po d a) = [width po; width po]
           /\ sym_matrix (spec_projected_block po d a))
        /\ ((forall b m n, shape m = [n; n] -> sym_matrix m ->
               In n (map width (t_proj_shells self)) ->
               ascending n (fst (syev b m))) ->
            forall k a i j,
              (k < length (t_proj_shells self))%nat -> (a < natm (mol hf))%nat ->
              (i <= j)%nat -> (j < width (nth k (t_proj_shells self) (zeros [])))%nat ->
              get2 E a (sec_start (map width (t_proj_shells self)) k + i)
              <= get2 E a (sec_start (map width (t_proj_shells self)) k + j)
              /\ get3 C 0 a (sec_start (map width (t_proj_shells self)) k + i)
                 <= get3 C 0 a (sec_start (map width (t_proj_shells self)) k + j))).
Proof.
  intros Hinit Hne Hd.
  pose proof (shells_blocks _ _ _ _ Hinit) as Hb.
  split.
  { rewrite (shells_row_widths hf model bas self Hinit).
    unfold make_shell_sec. now rewrite flat_map_concat_map. }
  assert (Hblock : forall k, (k < length (t_proj_shells self))%nat ->
            is_block (nao (mol hf)) (natm (mol hf))
              (nth k (t_proj_shells self) (zeros []))).
  { intros k Hk. rewrite Forall_forall in Hb. apply Hb. now apply nth_In. }
  assert (Hget : forall b k a j,
    (k < length (t_proj_shells self))%nat -> (a < natm (mol hf))%nat ->
    (j < width (nth k (t_proj_shells self) (zeros [])))%nat ->
    get2 (cat_of (eigvals_of syev self b d)) a
         (sec_start (map width (t_proj_shells self)) k + j)
    = get1 (fst (syev b
         (spec_projected_block (nth k (t_proj_shells self) (zeros [])) d a))) j).
  { intros b k a j Hk Ha Hj.
    pose proof (eigvals_is_eigs syev _ _ _ _ Hinit b d) as Heigs.
    pose proof (eigvals_widths syev _ _ _ _ Hinit b d) as Hw.
    pose proof (Hblock k Hk) as Hpo.
    assert (Hnth : nth k (eigvals_of syev self b d) (zeros [])
                   = fst (eig_of syev b
                       (pdm_of d (nth k (t_proj_shells self) (zeros []))))).
    { unfold eigvals_of. rewrite !map_map.
      rewrite (nth_indep _ (zeros [])
                 (fst (eig_of syev b (pdm_of d (zeros [])))))
        by now rewrite length_map.
      now rewrite (map_nth (fun po => fst (eig_of syev b (pdm_of d po)))). }
    rewrite <- Hw.
    rewrite cat_get with (na := natm (mol hf)) (d := zeros []).
    - rewrite Hnth. unfold eig_of. cbn [fst].
      rewrite (pdm_shape _ d _ _ Hpo). cbn [ix nth].
      rewrite get2_build2 by assumption.
      erewrite slice_pdm_spec by eassumption. reflexivity.
    - exact Heigs.
    - unfold eigvals_of. now rewrite !length_map.
    - exact Ha.
    - rewrite Hnth. unfold width at 1.
      erewrite eig_shape by (eapply pdm_shape; exact Hpo). exact Hj. }
  assert (Hshape : forall b,
    shape (cat_of (eigvals_of syev self b d)) = [natm (mol hf); n_proj self]).
  { intros b.
    destruct (cat_ok (natm (mol hf)) (eigvals_of syev self b d)) as [_ Hs];
      [now apply eigvals_nonempty | eapply eigvals_is_eigs; eassumption |].
    rewrite Hs, (eigvals_widths syev _ _ _ _ Hinit b d).
    now rewrite (shells_widths _ _ _ _ Hinit). }
  exists (cat_of (eigvals_of syev self false d)),
         (unsqueeze0 (cat_of (eigvals_of syev self true d))),
         (map (eig_of syev true) (map (pdm_of d) (t_proj_shells self))).
  split; [eapply make_eig_ok; eassumption|].
  split; [eapply t_ceig_ok; eassumption|].
  split; [apply Hshape|].
  split; [apply wf_build|].
  split; [unfold unsqueeze0; cbn [shape]; now rewrite Hshape|].
  split.
  - intros k a j Hk Ha Hj. rewrite get3_unsqueeze0. split; now apply Hget.
  - intros Hsym.
    assert (Hspec : forall k a,
      (k < length (t_proj_shells self))%nat -> (a < natm (mol hf))%nat ->
      shape (spec_projected_block (nth k (t_proj_shells self) (zeros [])) d a)
      = [width (nth k (t_proj_shells self) (zeros []));
         width (nth k (t_proj_shells self) (zeros []))]
      /\ sym_matrix
           (spec_projected_block (nth k (t_proj_shells self) (zeros [])) d a)).
    { intros k a Hk Ha.
      exact (spec_block_sym hf _ d a (Hblock k Hk) Hd Hsym Ha). }
    split; [exact Hspec|].
    intros Hasc k a i j Hk Ha Hij Hj. rewrite !get3_unsqueeze0.
    rewrite !Hget by (try assumption; lia).
    destruct (Hspec k a Hk Ha) as [Hsh Hsy].
    assert (Hin : In (width (nth k (t_proj_shells self) (zeros [])))
                     (map width (t_proj_shells self))).
    { apply in_map. now apply nth_In. }
    split; now apply (Hasc _ _ _ Hsh Hsy Hin).
Qed.

End DescriptorContents.

Lemma C3_witness :
  exists E, make_eig syev_sorted p_self (Some (p_dm 2)) = Ok E
            /\ shape E = [1; 3]%nat
            /\ get2 E 0 0 <= get2 E 0 2.
Proof.
  destruct (C3_descriptor_extraction syev_sorted p_hf pick_last p_basis
              p_self (p_dm 2) eq_refl)
    as (_ & E & C & eigs & HE & _ & Hs & _ & _ & _ & Hsym).
  - discriminate.
  - reflexivity.
  - exists E. split; [exact HE|]. split; [exact Hs|].
    destruct Hsym as [_ Hasc].
    + intros r s Hr Hs'. change (r < 1)%nat in Hr. change (s < 1)%nat in Hs'.
      replace r with 0%nat by lia. replace s with 0%nat by lia. reflexivity.
    + apply (Hasc) with (k := 0%nat) (a := 0%nat) (i := 0%nat) (j := 2%nat).
      * intros b m n _ _ Hn.
        assert (n = 3%nat) as -> by (vm_compute in Hn; lia).
        unfold syev_sorted. generalize (get2 m 0 0). intros x.
        destruct (Rlt_dec 0 x) as [Hx|Hx]; cbn [fst];
          intros [|[|[|i]]] [|[|[|j]]] Hij Hj; try lia; eval_arrays; lra.
      * vm_compute. lia.
      * vm_compute. lia.
      * lia.
      * vm_compute. lia.
Defined.

(** C3 as stated fails: the specification's block of the one shell of the
    toy basis is two columns wide, and its projected block for the toy
    density matrix is [[35, 50], [50, 72]]; the descriptors the code returns,
    35 and 72, are the projected blocks of the two radial rows, and neither
    is an eigenvalue of that matrix. *)
Lemma C3_counterexample :
  spec_shell_widths toy_basis = [2%nat]
  /\ map width (t_proj_shells toy_self) = [1; 1]%nat
  /\ make_eig syev_diag toy_self (Some toy_dm) = Ok (mk_nd [1; 2]%nat [35; 72])
  /\ (get2 toy_spec_block 0 0 = 35 /\ get2 toy_spec_block 0 1 = 50
      /\ get2 toy_spec_block 1 0 = 50 /\ get2 toy_spec_block 1 1 = 72)
  /\ ~ is_eigenvalue 2 toy_spec_block 35
  /\ ~ is_eigenvalue 2 toy_spec_block 72.
Proof.
  set (M := toy_spec_block).
  assert (M00 : get2 M 0 0 = 35) by (eval_arrays; ring).
  assert (M01 : get2 M 0 1 = 50) by (eval_arrays; ring).
  assert (M10 : get2 M 1 0 = 50) by (eval_arrays; ring).
  assert (M11 : get2 M 1 1 = 72) by (eval_arrays; ring).
  assert (Hnot : forall lam, lam = 35 \/ lam = 72 -> ~ is_eigenvalue 2 M lam).
  { intros lam Hlam (v & (i & Hi & Hv) & Heq).
    pose proof (Heq 0%nat ltac:(lia)) as H0.
    pose proof (Heq 1%nat ltac:(lia)) as H1.
    cbn [sumR] in H0, H1. rewrite M00, M01 in H0. rewrite M10, M11 in H1.
    assert (v 0%nat = 0 /\ v 1%nat = 0) as [V0 V1]
      by (destruct Hlam as [-> | ->]; split; lra).
    destruct i as [|[|i]]; [now apply Hv | now apply Hv | lia]. }
  split; [reflexivity|]. split; [reflexivity|].
  split; [eval_arrays; do 2 f_equal; repeat (f_equal; try ring)|].
  split; [repeat split; assumption|].
  split; apply Hnot; [now left | now right].
Qed.

(* ================================================================== *)
(** * The reconstructed potential (section 4.5) *)

Section Potential.

Variable syev : bool -> ndarray -> ndarray * ndarray.

(** C4: on gradient blocks [dE/dM] that fit the shell blocks, the last
    statements of [t_get_ec] return the orbitals x orbitals matrix whose
    entries are the sum over the shell blocks of
    [sum over a of P_a . (dE/dM_a) . P_a^T]; and for a density matrix of the
    expected size [t_get_ec] returns exactly that matrix, of the size of
    the density matrix, for the gradients reverse-mode differentiation
    hands it. *)
Theorem C4_potential_reconstruction hf model bas self :
  DeepSCF_init hf model bas = Ok self ->
  t_proj_shells self <> [] ->
  (forall grads,
     Forall2 (fits (nao (mol hf)) (natm (mol hf))) (t_proj_shells self) grads ->
     exists vc,
       reconstruct (t_proj_aos self) grads = Ok vc
       /\ shape vc = [nao (mol hf); nao (mol hf)] /\ wf vc
       /\ forall r s, (r < nao (mol hf))%nat -> (s < nao (mol hf))%nat ->
            get2 vc r s
            = fold_right
                (fun pg acc => spec_shell_potential (fst pg) (snd pg) r s + acc) 0
                (combine (t_proj_shells self) grads))
  /\ (forall d, shape d = [nao (mol hf); nao (mol hf)] ->
      exists ec vc ceig eigs,
        t_ceig syev self d = Ok (ceig, eigs)
        /\ Forall2 (fits (nao (mol hf)) (natm (mol hf))) (t_proj_shells self)
                   (autograd_grad (net self) ceig eigs)
        /\ reconstruct (t_proj_aos self) (autograd_grad (net self) ceig eigs) = Ok vc
        /\ t_get_ec syev self d = Ok (ec, vc)
        /\ shape vc = shape d).
Proof.
  intros Hinit Hne.
  destruct (init_inv _ _ _ _ Hinit) as (_ & _ & _ & _ & _ & _ & _ & Haos).
  assert (Hrec : forall grads,
     Forall2 (fits (nao (mol hf)) (natm (mol hf))) (t_proj_shells self) grads ->
     reconstruct (t_proj_aos self) grads = Ok (vc_of (t_proj_shells self) grads)
     /\ shape (vc_of (t_proj_shells self) grads) = [nao (mol hf); nao (mol hf)]
     /\ wf (vc_of (t_proj_shells self) grads)
     /\ forall r s, (r < nao (mol hf))%nat -> (s < nao (mol hf))%nat ->
          get2 (vc_of (t_proj_shells self) grads) r s
          = total_contrib (t_proj_shells self) grads r s).
  { intros grads Hfit. rewrite Haos.
    now apply reconstruct_ok with (na := natm (mol hf)). }
  split.
  - intros grads Hfit. destruct (Hrec grads Hfit) as (Hok & Hsh & Hwf & Hget).
    exists (vc_of (t_proj_shells self) grads). repeat split; try assumption.
    intros r s Hr Hs. rewrite (Hget r s Hr Hs).
    now apply total_contrib_spec with (nr := nao (mol hf)) (na := natm (mol hf)).
  - intros d Hd.
    pose proof (grad_dms_fits syev _ _ _ _ Hinit d) as Hfit.
    destruct (Hrec _ Hfit) as (Hok & Hsh & _).
    exists (forward (net self) (ceig_of syev self d)),
           (vc_of (t_proj_shells self) (grad_dms_of syev self d)),
           (ceig_of syev self d), (eigpairs_of syev self d).
    assert (Hag : autograd_grad (net self) (ceig_of syev self d)
                    (eigpairs_of syev self d) = grad_dms_of syev self d).
    { unfold autograd_grad. now rewrite autograd_grads_from. }
    rewrite Hag. repeat split.
    + now apply t_ceig_ok with (hf := hf) (model := model) (bas := bas).
    + exact Hfit.
    + exact Hok.
    + now apply t_get_ec_ok with (hf := hf) (model := model) (bas := bas).
    + now rewrite Hsh, Hd.
Qed.

(** C9: the correction potential [t_get_ec] returns is a symmetric matrix,
    for every density matrix of the expected size (symmetric or not). *)
Theorem C9_potential_symmetric hf model bas self d :
  DeepSCF_init hf model bas = Ok self ->
  t_proj_shells self <> [] ->
  shape d = [nao (mol hf); nao (mol hf)] ->
  exists ec vc,
    t_get_ec syev self d = Ok (ec, vc)
    /\ shape vc = [nao (mol hf); nao (mol hf)]
    /\ (forall r s, (r < nao (mol hf))%nat -> (s < nao (mol hf))%nat ->
          get2 vc r s = get2 vc s r)
    /\ transpose vc = vc.
Proof.
  intros Hinit Hne Hd.
  pose proof (grad_dms_fits syev _ _ _ _ Hinit d) as Hfit.
  destruct (reconstruct_ok _ _ _ _ Hne Hfit) as (_ & Hsh & Hwf & Hget).
  exists (forward (net self) (ceig_of syev self d)),
         (vc_of (t_proj_shells self) (grad_dms_of syev self d)).
  assert (Hsym : forall r s, (r < nao (mol hf))%nat -> (s < nao (mol hf))%nat ->
            get2 (vc_of (t_proj_shells self) (grad_dms_of syev self d)) r s
            = get2 (vc_of (t_proj_shells self) (grad_dms_of syev self d)) s r).
  { intros r s Hr Hs. rewrite !Hget by assumption.
    apply total_contrib_sym with (nr := nao (mol hf)) (na := natm (mol hf)).
    - exact Hfit.
    - apply grads_from_sym. }
  repeat split.
  - now apply t_get_ec_ok with (hf := hf) (model := model) (bas := bas).
  - exact Hsh.
  - exact Hsym.
  - apply nd_ext.
    + apply wf_build.
    + exact Hwf.
    + unfold transpose. now rewrite Hsh.
    + unfold transpose. rewrite Hsh. norm_shapes. intros idx Hidx.
      apply inb2 in Hidx as (r & s & -> & Hr & Hs).
      fold (get2 (build2 (nao (mol hf)) (nao (mol hf))
        (fun i j => get2 (vc_of (t_proj_shells self) (grad_dms_of syev self d)) j i)) r s).
      rewrite get2_build2 by assumption. now apply Hsym.
Qed.

End Potential.

Lemma C4_witness :
  exists ec vc, t_get_ec syev_diag toy_self toy_dm = Ok (ec, vc)
                /\ shape vc = [2; 2]%nat.
Proof.
  destruct (C4_potential_reconstruction syev_diag toy_hf test_model toy_basis
              toy_self toy_init) as [_ H].
  - discriminate.
  - destruct (H toy_dm eq_refl) as (ec & vc & ceig & eigs & _ & _ & _ & Hok & Hs).
    exists ec, vc. split; [exact Hok | exact Hs].
Defined.

Lemma C9_witness :
  exists ec vc, t_get_ec syev_diag toy_self toy_dm = Ok (ec, vc)
                /\ get2 vc 0 1 = get2 vc 1 0.
Proof.
  destruct (C9_potential_symmetric syev_diag toy_hf test_model toy_basis
              toy_self toy_dm toy_init) as (ec & vc & Hok & _ & Hsym & _).
  - discriminate.
  - reflexivity.
  - exists ec, vc. split; [exact Hok | apply Hsym; simpl; lia].
Defined.

(* ================================================================== *)
(** * The effective potential and the energy (section 4.6) *)

Section Energy.

Variable syev : bool -> ndarray -> ndarray * ndarray.

(** The contraction ['ij,ji'] is the trace of the matrix product. *)
Lemma einsum_trace a b n :
  shape a = [n; n] -> shape b = [n; n] ->
  np_einsum_ij_ji a b = Ok (trace (matmul b a)).
Proof.
  intros Ha Hb. unfold np_einsum_ij_ji, trace, matmul.
  rewrite Ha, Hb, !bc_fit_refl, !bc_len_refl. norm_shapes. cbn [andb]. f_equal.
  rewrite sumR_swap. apply sumR_ext; intros j Hj.
  rewrite get2_build2 by assumption.
  apply sumR_ext; intros i Hi.
  rewrite (bc_ix_lt n i Hi), (bc_ix_lt n j Hj). ring.
Qed.

(** What [get_veff] returns for a density matrix of the expected size, when
    the baseline potential has the size of the density matrix. *)
Lemma get_veff_ok hf model bas self d dm_last vhf_last v0 :
  DeepSCF_init hf model bas = Ok self ->
  t_proj_shells self <> [] ->
  shape d = [nao (mol hf); nao (mol hf)] ->
  get_veff0 self d dm_last
    match vhf_last with Some t => tag_v0 t | None => None end = Ok v0 ->
  shape v0 = shape d ->
  get_veff syev self (Some d) dm_last vhf_last
  = Ok (mk_tagged
          (build (shape v0) (fun idx =>
             get v0 idx
             + get (vc_of (t_proj_shells self) (grad_dms_of syev self d)) idx))
          (Some (forward (net self) (ceig_of syev self d)))
          (Some v0)).
Proof.
  intros Hinit Hne Hd Hbase Hv0. unfold get_veff, get_ec.
  unfold ndim. rewrite Hd. cbn [length Nat.eqb negb].
  rewrite Hbase. cbn [bind].
  rewrite (t_get_ec_ok syev _ _ _ _ Hinit d Hd Hne). cbn [bind].
  destruct (reconstruct_ok _ _ _ _ Hne (grad_dms_fits syev _ _ _ _ Hinit d))
    as (_ & Hsh & _).
  rewrite np_add_same by (now rewrite Hsh, Hv0, Hd). reflexivity.
Qed.

(** [energy_elec] on a potential that carries both tags. *)
Lemma energy_elec_tagged (self : DeepSCF) (dm h1e : option ndarray)
    (vtot V0 : ndarray) (Ec : R) (n : nat) :
  let D := match dm with Some d => d | None => make_rdm1 (base self) end in
  let H := match h1e with Some h => h | None => get_hcore (base self) end in
  shape D = [n; n] -> shape H = [n; n] -> shape V0 = [n; n] ->
  energy_elec syev self dm h1e (Some (mk_tagged vtot (Some Ec) (Some V0)))
  = Ok (1 / 2 * trace (matmul D V0) + trace (matmul D H) + Ec,
        1 / 2 * trace (matmul D V0) + Ec).
Proof.
  intros D H HD HH HV. unfold energy_elec. fold D. fold H.
  cbn [tag_ec tag_v0 bind].
  rewrite (einsum_trace H D n HH HD). cbn [bind].
  rewrite (einsum_trace V0 D n HV HD). cbn [bind].
  f_equal. f_equal; lra.
Qed.

(** C5: given a potential that carries both tags, [energy_elec] returns
    [0.5 tr(D V0) + tr(D H) + Ec] and [0.5 tr(D V0) + Ec], with [Ec] the
    tagged value: the engine, its network and [get_veff] play no part. *)
Theorem C5_energy_decomposition (self : DeepSCF) (dm h1e : option ndarray)
    (vtot V0 : ndarray) (Ec : R) (n : nat) :
  let D := match dm with Some d => d | None => make_rdm1 (base self) end in
  let H := match h1e with Some h => h | None => get_hcore (base self) end in
  shape D = [n; n] -> shape H = [n; n] -> shape V0 = [n; n] ->
  energy_elec syev self dm h1e (Some (mk_tagged vtot (Some Ec) (Some V0)))
  = Ok (1 / 2 * trace (matmul D V0) + trace (matmul D H) + Ec,
        1 / 2 * trace (matmul D V0) + Ec).
Proof. exact (energy_elec_tagged self dm h1e vtot V0 Ec n). Qed.

(** C6: without a potential, or with one that lacks the [ec] tag,
    [energy_elec] is [energy_elec] on the potential [get_veff] computes from
    the density matrix; that potential carries both tags, and on operands
    of the expected size the call returns the energies. *)
Theorem C6_missing_tag_recomputes hf model bas self d h vhf v0 :
  DeepSCF_init hf model bas = Ok self ->
  t_proj_shells self <> [] ->
  shape d = [nao (mol hf); nao (mol hf)] ->
  shape h = [nao (mol hf); nao (mol hf)] ->
  hf_get_veff hf d None None = Ok v0 -> shape v0 = shape d ->
  (vhf = None \/ exists t, vhf = Some t /\ tag_ec t = None) ->
  exists v ec,
    get_veff syev self (Some d) None None = Ok v
    /\ tag_ec v = Some ec /\ tag_v0 v = Some v0
    /\ energy_elec syev self (Some d) (Some h) vhf
       = energy_elec syev self (Some d) (Some h) (Some v)
    /\ energy_elec syev self (Some d) (Some h) vhf
       = Ok (1 / 2 * trace (matmul d v0) + trace (matmul d h) + ec,
             1 / 2 * trace (matmul d v0) + ec).
Proof.
  intros Hinit Hne Hd Hh Hb Hv0 Hvhf.
  destruct (init_inv _ _ _ _ Hinit) as (Hbase & _).
  assert (Hb' : get_veff0 self d None None = Ok v0)
    by (unfold get_veff0; now rewrite Hbase).
  pose proof (get_veff_ok hf model bas self d None None v0 Hinit Hne Hd Hb' Hv0)
    as Hok.
  eexists; exists (forward (net self) (ceig_of syev self d)).
  split; [exact Hok|]. split; [reflexivity|]. split; [reflexivity|].
  assert (E : energy_elec syev self (Some d) (Some h) vhf
              = energy_elec syev self (Some d) (Some h) (Some
                  (mk_tagged
                     (build (shape v0) (fun idx =>
                        get v0 idx
                        + get (vc_of (t_proj_shells self) (grad_dms_of syev self d)) idx))
                     (Some (forward (net self) (ceig_of syev self d)))
                     (Some v0)))).
  { unfold energy_elec.
    destruct Hvhf as [-> | (t & -> & Ht)]; [|rewrite Ht]; rewrite Hok; reflexivity. }
  split; [exact E|]. rewrite E.
  apply (energy_elec_tagged self (Some d) (Some h) _ _ _ (nao (mol hf)));
    try assumption.
  now rewrite Hv0.
Qed.

End Energy.

Lemma C5_witness :
  energy_elec syev_diag toy_self (Some toy_dm) None
    (Some (mk_tagged toy_dm (Some 7) (Some toy_dm)))
  = Ok (1 / 2 * trace (matmul toy_dm toy_dm)
        + trace (matmul toy_dm (get_hcore (base toy_self))) + 7,
        1 / 2 * trace (matmul toy_dm toy_dm) + 7).
Proof.
  apply (C5_energy_decomposition syev_diag toy_self (Some toy_dm) None
           toy_dm toy_dm 7 2); reflexivity.
Defined.

Lemma C6_witness :
  exists e, energy_elec syev_diag toy_self (Some toy_dm) (Some toy_dm) None = Ok e.
Proof.
  destruct (C6_missing_tag_recomputes syev_diag toy_hf test_model toy_basis
              toy_self toy_dm toy_dm None (zeros [2; 2]%nat) toy_init)
    as (v & ec & _ & _ & _ & _ & He).
  - discriminate.
  - reflexivity.
  - reflexivity.
  - reflexivity.
  - reflexivity.
  - now left.
  - eexists. exact He.
Defined.

(* ================================================================== *)
(** * Density matrices of the wrong rank or size (section 7) *)

Section ShapeErrors.

Variable syev : bool -> ndarray -> ndarray * ndarray.

Lemma ndim_not_2 d n : ndim d <> 2%nat -> shape d <> [n; n].
Proof. unfold ndim. intros H E. rewrite E in H. now apply H. Qed.

Lemma bc_fit_spec n m :
  bc_fit n m = true <-> (m = n \/ m = 1%nat \/ n = 1%nat).
Proof.
  unfold bc_fit.
  destruct (Nat.eqb_spec n m), (Nat.eqb_spec n 1), (Nat.eqb_spec m 1);
    cbn [orb]; split; intros H; try reflexivity; try discriminate; lia.
Qed.

(** The density matrices the contraction accepts. *)
Lemma dm_fits_spec nr d :
  dm_fits nr d = true
  <-> exists n1 n2, shape d = [n1; n2]
        /\ (n1 = nr \/ n1 = 1%nat \/ nr = 1%nat)
        /\ (n2 = nr \/ n2 = 1%nat \/ nr = 1%nat).
Proof.
  unfold dm_fits. split.
  - destruct (shape d) as [|n1 [|n2 [|? ?]]]; try discriminate.
    intros H. apply andb_prop in H as [H1 H2].
    exists n1, n2. split; [reflexivity|]. split; now apply bc_fit_spec.
  - intros (n1 & n2 & -> & H1 & H2).
    apply andb_true_intro. split; now apply bc_fit_spec.
Qed.

Lemma dm_fits_expected d n : shape d = [n; n] -> dm_fits n d = true.
Proof. unfold dm_fits. intros ->. now rewrite bc_fit_refl. Qed.

Lemma dm_fits_rank nr d : ndim d <> 2%nat -> dm_fits nr d = false.
Proof.
  unfold ndim, dm_fits. intros H.
  destruct (shape d) as [|n1 [|n2 [|? ?]]]; try reflexivity. now elim H.
Qed.

Lemma dm_expand_shape nr d : shape (dm_expand nr d) = [nr; nr].
Proof.
  unfold dm_expand. destruct (Nat.eqb_spec nr 1) as [->|]; reflexivity.
Qed.

(** A density matrix that fits is treated as the matrix it expands to. *)
Lemma paths_expand hf model bas self d :
  DeepSCF_init hf model bas = Ok self ->
  dm_fits (nao (mol hf)) d = true ->
  make_eig syev self (Some d)
  = make_eig syev self (Some (dm_expand (nao (mol hf)) d))
  /\ t_get_ec syev self d = t_get_ec syev self (dm_expand (nao (mol hf)) d).
Proof.
  intros Hinit Hd.
  assert (E : t_proj_dms self d
              = t_proj_dms self (dm_expand (nao (mol hf)) d)).
  { rewrite (proj_dms_expand _ _ _ _ Hinit d Hd).
    now rewrite (proj_dms_ok _ _ _ _ Hinit _ (dm_expand_shape _ d)). }
  unfold make_eig, t_get_ec, t_ceig. now rewrite E.
Qed.

(** C7, as the code does it: on a density matrix of the expected size the
    descriptor path returns, and so it does on every matrix of rank 2 whose
    axes fit the orbital axis, an axis of length 1 being broadcast; on any
    other array it raises, and which exception depends on the first check
    the array meets: [make_eig], [t_get_ec] and [get_ec] raise the
    [RuntimeError] of the contraction, [get_veff] raises the
    [AssertionError] of its guard when the array is not of rank 2, and lets
    an array of rank 2 that does not fit through to the baseline solver and
    then to the contraction. *)
Theorem C7_shape_failures hf model bas self :
  DeepSCF_init hf model bas = Ok self ->
  t_proj_shells self <> [] ->
  (forall d, shape d = [nao (mol hf); nao (mol hf)] ->
     is_ok (make_eig syev self (Some d)) = true
     /\ is_ok (t_get_ec syev self d) = true)
  /\ (forall d,
        dm_fits (nao (mol hf)) d = true
        <-> exists n1 n2, shape d = [n1; n2]
              /\ (n1 = nao (mol hf) \/ n1 = 1%nat \/ nao (mol hf) = 1%nat)
              /\ (n2 = nao (mol hf) \/ n2 = 1%nat \/ nao (mol hf) = 1%nat))
  /\ (forall d, dm_fits (nao (mol hf)) d = true ->
        is_ok (make_eig syev self (Some d)) = true
        /\ is_ok (t_get_ec syev self d) = true)
  /\ (forall d, dm_fits (nao (mol hf)) d = false ->
        make_eig syev self (Some d) = Raise RuntimeError
        /\ t_get_ec syev self d = Raise RuntimeError
        /\ get_ec syev self (Some d) = Raise RuntimeError)
  /\ (forall d dm_last vhf_last, ndim d <> 2%nat ->
        get_veff syev self (Some d) dm_last vhf_last = Raise AssertionError)
  /\ (forall d dm_last vhf_last,
        ndim d = 2%nat -> dm_fits (nao (mol hf)) d = false ->
        get_veff syev self (Some d) dm_last vhf_last
        = match get_veff0 self d dm_last
                  match vhf_last with Some t => tag_v0 t | None => None end with
          | Ok _ => Raise RuntimeError
          | Raise e => Raise e
          end).
Proof.
  intros Hinit Hne.
  assert (Hgood : forall d, shape d = [nao (mol hf); nao (mol hf)] ->
            is_ok (make_eig syev self (Some d)) = true
            /\ is_ok (t_get_ec syev self d) = true).
  { intros d Hd. split.
    - erewrite make_eig_ok by eassumption. reflexivity.
    - erewrite t_get_ec_ok by eassumption. reflexivity. }
  assert (Hbad : forall d, dm_fits (nao (mol hf)) d = false ->
            make_eig syev self (Some d) = Raise RuntimeError
            /\ t_get_ec syev self d = Raise RuntimeError).
  { intros d Hd. unfold make_eig, t_get_ec, t_ceig.
    now rewrite (proj_dms_raise _ _ _ _ Hinit d Hd Hne). }
  split; [exact Hgood|].
  split; [intros d; apply dm_fits_spec|].
  split; [|split; [|split]].
  - intros d Hd.
    destruct (paths_expand hf model bas self d Hinit Hd) as [-> ->].
    apply Hgood, dm_expand_shape.
  - intros d Hd. destruct (Hbad d Hd) as [H1 H2].
    split; [exact H1|]. split; [exact H2|]. unfold get_ec. exact H2.
  - intros d dm_last vhf_last Hnd. unfold get_veff.
    destruct (Nat.eqb_spec (ndim d) 2); [contradiction | reflexivity].
  - intros d dm_last vhf_last Hnd Hd. unfold get_veff.
    rewrite Hnd. cbn [Nat.eqb negb].
    destruct (get_veff0 self d dm_last _); [|reflexivity].
    cbn [bind]. unfold get_ec.
    now rewrite (proj2 (Hbad d Hd)).
Qed.

End ShapeErrors.

Lemma C7_witness :
  is_ok (make_eig syev_diag toy_self (Some toy_dm)) = true
  /\ make_eig syev_diag toy_self (Some (mk_nd [3; 3]%nat (repeat 1 9)))
     = Raise RuntimeError.
Proof.
  destruct (C7_shape_failures syev_diag toy_hf test_model toy_basis toy_self
              toy_init) as (Hgood & _ & _ & Hbad & _).
  - discriminate.
  - split.
    + apply (Hgood toy_dm). reflexivity.
    + apply (Hbad (mk_nd [3; 3]%nat (repeat 1 9))). reflexivity.
Defined.

(** C7 as stated fails twice.  A density matrix of the wrong size need not
    be rejected: the 1 x 1 matrix [[5]] is broadcast over the two orbitals
    of the toy engine, and [make_eig] returns the descriptors 80 and 180 of
    the matrix that is 5 everywhere.  And there is no one exception for the
    arrays that are rejected: the vector [[1, 2]] makes [make_eig] raise the
    contraction's [RuntimeError] and [get_veff] the guard's
    [AssertionError]. *)
Lemma C7_counterexample :
  shape (mk_nd [1; 1]%nat [5]) <> [nao (mol toy_hf); nao (mol toy_hf)]
  /\ make_eig syev_diag toy_self (Some (mk_nd [1; 1]%nat [5]))
     = Ok (mk_nd [1; 2]%nat [80; 180])
  /\ make_eig syev_diag toy_self (Some (mk_nd [2%nat] [1; 2])) = Raise RuntimeError
  /\ get_veff syev_diag toy_self (Some (mk_nd [2%nat] [1; 2])) None None
     = Raise AssertionError
  /\ ~ (exists shape_error : exn, forall d,
          shape d <> [nao (mol toy_hf); nao (mol toy_hf)] ->
          make_eig syev_diag toy_self (Some d) = Raise shape_error
          /\ get_veff syev_diag toy_self (Some d) None None = Raise shape_error).
Proof.
  assert (H1 : make_eig syev_diag toy_self (Some (mk_nd [2%nat] [1; 2]))
               = Raise RuntimeError) by reflexivity.
  assert (H2 : get_veff syev_diag toy_self (Some (mk_nd [2%nat] [1; 2])) None None
               = Raise AssertionError) by reflexivity.
  split; [discriminate|].
  split; [eval_arrays; do 2 f_equal; repeat (f_equal; try ring)|].
  split; [exact H1|]. split; [exact H2|].
  intros (e & He).
  destruct (He (mk_nd [2%nat] [1; 2])) as [E1 E2]; [discriminate|].
  rewrite H1 in E1. rewrite H2 in E2. congruence.
Qed.

(* ================================================================== *)
(** * The zero functional (section 8) *)

Section ZeroModel.

Variable syev : bool -> ndarray -> ndarray * ndarray.

Lemma derivable_pt_lim_ext (f g : R -> R) x l :
  (forall t, f t = g t) -> derivable_pt_lim f x l -> derivable_pt_lim g x l.
Proof.
  intros E H eps Heps. destruct (H eps Heps) as [delta Hd].
  exists delta. intros h Hh Hlt. rewrite <- !E. now apply Hd.
Qed.

Lemma wf_unit_at sh k : wf (unit_at sh k).
Proof. unfold wf, unit_at. cbn [data shape]. now rewrite length_map, length_seq. Qed.

(** The inner product with a unit array reads one entry. *)
Lemma dot_unit_at g k :
  wf g -> (k < numel (shape g))%nat ->
  dot g (unit_at (shape g) k) = nth k (data g) 0.
Proof.
  intros Hg Hk. unfold dot. rewrite Hg.
  rewrite sumR_ext
    with (g := fun i => if (i =? k)%nat then nth i (data g) 0 else 0).
  - now apply sumR_pick.
  - intros i Hi. unfold unit_at. cbn [data].
    rewrite nth_tabulate by assumption.
    destruct (i =? k)%nat; ring.
Qed.

Lemma dot_zero_l g h : all_zero g -> dot g h = 0.
Proof.
  intros Hz. unfold dot.
  rewrite sumR_ext with (g := fun _ => 0); [apply sumR_zero|].
  intros k Hk. unfold all_zero in Hz. rewrite Forall_forall in Hz.
  rewrite (Hz (nth k (data g) 0)) by now apply nth_In. ring.
Qed.

(** A functional that is zero everywhere has a zero gradient. *)
Lemma zero_gradient f df x :
  (forall y, f y = 0) -> is_gradient f df -> wf x -> all_zero (df x).
Proof.
  intros Hf Hgrad Hx.
  destruct (Hgrad x Hx) as (Hwf & Hsh & Hder).
  unfold all_zero. apply Forall_forall. intros v Hv.
  apply (In_nth _ _ 0) in Hv as (k & Hk & <-).
  rewrite Hwf, Hsh in Hk.
  rewrite <- (dot_unit_at (df x) k Hwf) by now rewrite Hsh.
  rewrite Hsh.
  apply (uniqueness_limite (fun _ => 0) 0).
  - apply derivable_pt_lim_ext with (f := fun t => f (axpy x t (unit_at (shape x) k))).
    + intros t. apply Hf.
    + apply Hder; [apply wf_unit_at | reflexivity].
  - apply (derivable_pt_lim_const 0).
Qed.

Lemma wf_unsqueeze0 t : wf t -> wf (unsqueeze0 t).
Proof.
  unfold wf, unsqueeze0. cbn [data shape]. intros H.
  rewrite numel_cons, H. lia.
Qed.

Lemma get_zeros sh idx : get (zeros sh) idx = 0.
Proof. apply get_all_zero. now apply all_zero_build. Qed.

(** C8: with a functional that is zero everywhere, and whose gradient
    reverse-mode differentiation obtains, [t_get_ec] returns the energy 0
    and the zero matrix, and [get_veff] returns the baseline potential
    itself, tagged with the energy 0 and with itself. *)
Theorem C8_zero_functional hf model bas self d dm_last vhf_last v0 :
  DeepSCF_init hf model bas = Ok self ->
  t_proj_shells self <> [] ->
  shape d = [nao (mol hf); nao (mol hf)] ->
  (forall x, forward (net self) x = 0) ->
  is_gradient (forward (net self)) (backward (net self)) ->
  get_veff0 self d dm_last
    match vhf_last with Some t => tag_v0 t | None => None end = Ok v0 ->
  shape v0 = shape d -> wf v0 ->
  t_get_ec syev self d = Ok (0, zeros [nao (mol hf); nao (mol hf)])
  /\ get_veff syev self (Some d) dm_last vhf_last
     = Ok (mk_tagged v0 (Some 0) (Some v0)).
Proof.
  intros Hinit Hne Hd Hzero Hgrad Hbase Hv0 Hwf0.
  pose proof (grad_dms_fits syev _ _ _ _ Hinit d) as Hfit.
  destruct (reconstruct_ok _ _ _ _ Hne Hfit) as (_ & Hsh & Hwf & Hget).
  assert (Hvc : vc_of (t_proj_shells self) (grad_dms_of syev self d)
                = zeros [nao (mol hf); nao (mol hf)]).
  { apply nd_ext; [exact Hwf | apply wf_build | now rewrite Hsh |].
    rewrite Hsh. intros idx Hidx. rewrite get_zeros.
    apply inb2 in Hidx as (r & s & -> & Hr & Hs).
    fold (get2 (vc_of (t_proj_shells self) (grad_dms_of syev self d)) r s).
    rewrite Hget by assumption.
    apply total_contrib_zero. unfold grad_dms_of. apply grads_from_zero.
    unfold all_zero, squeeze0. cbn [data].
    apply (zero_gradient _ _ _ Hzero Hgrad).
    unfold ceig_of. apply wf_unsqueeze0, wf_build. }
  split.
  - rewrite (t_get_ec_ok syev _ _ _ _ Hinit d Hd Hne).
    now rewrite Hzero, Hvc.
  - rewrite (get_veff_ok syev hf model bas self d dm_last vhf_last v0
               Hinit Hne Hd Hbase Hv0).
    rewrite Hzero, Hvc. do 2 f_equal.
    apply nd_ext; [apply wf_build | exact Hwf0 | reflexivity |].
    rewrite shape_build. intros idx Hidx.
    rewrite get_build by assumption. rewrite get_zeros. ring.
Qed.

End ZeroModel.

Lemma toy_zero_init : DeepSCF_init toy_hf zero_model toy_basis = Ok toy_zero_self.
Proof. reflexivity. Qed.

Lemma zero_model_gradient : is_gradient (forward zero_model) (backward zero_model).
Proof.
  intros x Hx. cbn [zero_model forward backward].
  split; [apply wf_build|]. split; [reflexivity|].
  intros h _ _. rewrite dot_zero_l by now apply all_zero_build.
  apply (derivable_pt_lim_const 0).
Qed.

Lemma C8_witness :
  t_get_ec syev_diag toy_zero_self toy_dm = Ok (0, zeros [2; 2]%nat)
  /\ get_veff syev_diag toy_zero_self (Some toy_dm) None None
     = Ok (mk_tagged (zeros [2; 2]%nat) (Some 0) (Some (zeros [2; 2]%nat))).
Proof.
  apply (C8_zero_functional syev_diag toy_hf zero_model toy_basis toy_zero_self
           toy_dm None None (zeros [2; 2]%nat) toy_zero_init).
  - discriminate.
  - reflexivity.
  - reflexivity.
  - exact zero_model_gradient.
  - reflexivity.
  - reflexivity.
  - apply wf_build.
Defined.

(* ================================================================== *)
(** * The potential as the derivative of the energy (sections 4.5, 8) *)

Section SumsOverIndices.

Lemma sumR_split a b f :
  sumR (a + b) f = sumR a f + sumR b (fun j => f (a + j)%nat).
Proof.
  induction b as [|b IH].
  - rewrite Nat.add_0_r. simpl. lra.
  - rewrite Nat.add_succ_r. simpl. rewrite IH. lra.
Qed.

(** A sum over a row-major range is a double sum. *)
Lemma sumR_flat2 n m (G : nat -> nat -> R) :
  sumR (n * m) (fun k => G (k / m)%nat (k mod m)%nat)
  = sumR n (fun i => sumR m (fun j => G i j)).
Proof.
  induction n as [|n IH]; [reflexivity|].
  rewrite Nat.mul_succ_l, sumR_split, IH. cbn [sumR]. f_equal.
  apply sumR_ext. intros j Hj.
  assert (Hm : m <> 0%nat) by lia.
  rewrite Nat.div_add_l by assumption.
  rewrite (Nat.div_small j m) by assumption.
  rewrite (Nat.add_comm (n * m) j), Nat.Div0.mod_add.
  rewrite (Nat.mod_small j m) by assumption.
  now rewrite Nat.add_0_r.
Qed.

Lemma sumR_unravel sh : forall F,
  sumR (numel sh) (fun k => F (unravel sh k)) = sum_idx sh F.
Proof.
  induction sh as [|n sh IH]; intros F.
  - simpl. lra.
  - cbn [sum_idx unravel]. rewrite numel_cons.
    rewrite (sumR_flat2 n (numel sh) (fun i j => F (i :: unravel sh j))).
    apply sumR_ext. intros i _. apply (IH (fun idx => F (i :: idx))).
Qed.

(** The inner product, index by index. *)
Lemma dot_sum_idx g h :
  wf g -> wf h -> shape h = shape g ->
  dot g h = sum_idx (shape g) (fun idx => get g idx * get h idx).
Proof.
  intros Hg Hh Hs. unfold dot. rewrite Hg.
  rewrite <- sumR_unravel. apply sumR_ext. intros k Hk.
  unfold get. rewrite Hs. now rewrite ravel_unravel.
Qed.

Lemma sumR_swap2 n m l (F : nat -> nat -> nat -> R) :
  sumR n (fun r => sumR m (fun s => sumR l (fun x => F r s x)))
  = sumR l (fun x => sumR n (fun r => sumR m (fun s => F r s x))).
Proof.
  rewrite sumR_ext with (g := fun r => sumR l (fun x => sumR m (fun s => F r s x)))
    by (intros; apply sumR_swap).
  apply (sumR_swap n l (fun r x => sumR m (fun s => F r s x))).
Qed.

(** The contraction that rebuilds the potential is the transpose of the
    contraction that projects the density matrix. *)
Lemma adjoint_sums nr na w (g P : nat -> nat -> nat -> R) (D : nat -> nat -> R) :
  sumR na (fun a => sumR w (fun p => sumR w (fun q =>
    g a p q * sumR nr (fun r => sumR nr (fun s => P r a p * D r s * P s a q)))))
  = sumR nr (fun r => sumR nr (fun s =>
      sumR na (fun a => sumR w (fun p => sumR w (fun q =>
        P r a p * P s a q * g a p q))) * D r s)).
Proof.
  transitivity
    (sumR na (fun a => sumR w (fun p => sumR w (fun q =>
       sumR nr (fun r => sumR nr (fun s =>
         P r a p * P s a q * g a p q * D r s)))))).
  - apply sumR_ext; intros a _. apply sumR_ext; intros p _.
    apply sumR_ext; intros q _. rewrite <- sumR_scal.
    apply sumR_ext; intros r _. rewrite <- sumR_scal.
    apply sumR_ext; intros s _. ring.
  - symmetry.
    transitivity
      (sumR nr (fun r => sumR nr (fun s =>
         sumR na (fun a => sumR w (fun p => sumR w (fun q =>
           P r a p * P s a q * g a p q * D r s)))))).
    + apply sumR_ext; intros r _. apply sumR_ext; intros s _.
      rewrite <- sumR_scal_r. apply sumR_ext; intros a _.
      rewrite <- sumR_scal_r. apply sumR_ext; intros p _.
      now rewrite <- sumR_scal_r.
    + rewrite sumR_swap2. apply sumR_ext; intros a _.
      rewrite sumR_swap2. apply sumR_ext; intros p _.
      now rewrite sumR_swap2.
Qed.

End SumsOverIndices.

Section ChainRule.

Variable syev : bool -> ndarray -> ndarray * ndarray.
Variables nr na : nat.

Lemma shape_axpy x t h : shape (axpy x t h) = shape x.
Proof. reflexivity. Qed.

(** The projection is linear in the density matrix. *)
Lemma pdm_axpy po d t h :
  is_block nr na po -> shape d = [nr; nr] ->
  pdm_of (axpy d t h) po = axpy (pdm_of d po) t (pdm_of h po).
Proof.
  intros Hb Hd. unfold is_block in Hb. unfold axpy at 2.
  unfold pdm_of at 1 2. rewrite Hb. norm_shapes.
  unfold build3 at 1. apply build_ext. intros idx Hidx.
  apply inb3 in Hidx as (a & p & q & -> & Ha & Hp & Hq). cbn [ix nth].
  fold (get3 (pdm_of d po) a p q). fold (get3 (pdm_of h po) a p q).
  unfold pdm_of. rewrite Hb. cbn [ix nth].
  rewrite !get3_build3 by assumption.
  rewrite <- sumR_scal, <- sumR_plus. apply sumR_ext; intros r Hr.
  rewrite <- sumR_scal, <- sumR_plus. apply sumR_ext; intros s Hs.
  unfold get2 at 1. unfold axpy. rewrite Hd.
  rewrite get_build by solve_inb. unfold get2. ring.
Qed.

Lemma pdms_axpy shells d t h :
  Forall (is_block nr na) shells -> shape d = [nr; nr] ->
  map (pdm_of (axpy d t h)) shells
  = list_axpy (map (pdm_of d) shells) t (map (pdm_of h) shells).
Proof.
  intros Hb Hd. induction Hb as [|po shells Hpo _ IH]; [reflexivity|].
  cbn [map list_axpy combine fst snd].
  rewrite (pdm_axpy po d t h Hpo Hd). f_equal. exact IH.
Qed.

Lemma pdms_directions (okdir : ndarray -> Prop) shells d h :
  (forall po, In po shells -> okdir (pdm_of h po)) ->
  Forall2 (fun m k => shape k = shape m /\ wf k /\ okdir k)
          (map (pdm_of d) shells) (map (pdm_of h) shells).
Proof.
  induction shells as [|po shells IH]; intros Hok; constructor.
  - split; [reflexivity|]. split; [apply wf_build | apply Hok; now left].
  - apply IH. intros po' Hin. apply Hok. now right.
Qed.

(** The projection of a symmetric matrix is a batch of symmetric blocks. *)
Lemma pdm_sym po h :
  is_block nr na po -> shape h = [nr; nr] -> sym_matrix h ->
  sym_block (pdm_of h po).
Proof.
  intros Hb Hh Hsym. unfold is_block in Hb. unfold sym_matrix in Hsym.
  rewrite Hh in Hsym. cbn [ix nth] in Hsym.
  unfold sym_block, pdm_of. rewrite Hb. norm_shapes. intros a p q Ha Hp Hq.
  rewrite !get3_build3 by assumption.
  rewrite sumR_swap. apply sumR_ext; intros r Hr. apply sumR_ext; intros s Hs.
  rewrite (Hsym s r) by assumption. ring.
Qed.

Lemma sumR2_pick n m r s (f : nat -> nat -> R) :
  (r < n)%nat -> (s < m)%nat ->
  sumR n (fun i => sumR m (fun j =>
    if (i =? r)%nat && (j =? s)%nat then f i j else 0)) = f r s.
Proof.
  intros Hr Hs.
  rewrite sumR_ext with (g := fun i => if (i =? r)%nat then f i s else 0).
  - exact (sumR_pick n r (fun i => f i s) Hr).
  - intros i _. destruct (i =? r)%nat; cbn [andb].
    + exact (sumR_pick m s (fun j => f i j) Hs).
    + apply sumR_zero.
Qed.

(** The inner product with a symmetric unit perturbation is the mean of the
    two entries. *)
Lemma dot_sym_unit v r s :
  wf v -> shape v = [nr; nr] -> (r < nr)%nat -> (s < nr)%nat ->
  dot v (sym_unit nr r s) = (get2 v r s + get2 v s r) / 2.
Proof.
  intros Hv Hsv Hr Hs.
  rewrite dot_sum_idx; [|exact Hv | apply wf_build | now rewrite Hsv].
  rewrite Hsv. cbn [sum_idx].
  rewrite <- (sumR2_pick nr nr r s (fun i j => get2 v i j)) by assumption.
  rewrite <- (sumR2_pick nr nr s r (fun i j => get2 v i j)) by assumption.
  unfold Rdiv. rewrite <- sumR_plus, <- sumR_scal_r.
  apply sumR_ext; intros i Hi.
  rewrite <- sumR_plus, <- sumR_scal_r. apply sumR_ext; intros j Hj.
  fold (get2 v i j). fold (get2 (sym_unit nr r s) i j).
  unfold sym_unit. rewrite get2_build2 by assumption.
  destruct ((i =? r)%nat && (j =? s)%nat), ((i =? s)%nat && (j =? r)%nat);
    unfold Rdiv; ring.
Qed.

(** Inner product of a gradient block with the projection of a direction. *)
Lemma adjoint_block po g h :
  fits nr na po g -> wf g -> shape h = [nr; nr] ->
  dot g (pdm_of h po)
  = sumR nr (fun r => sumR nr (fun s => contrib po g r s * get2 h r s)).
Proof.
  intros [Hb Hg] Hwf Hh. unfold is_block in Hb.
  rewrite dot_sum_idx; [|exact Hwf | apply wf_build|].
  2:{ unfold pdm_of. rewrite Hb, Hg. reflexivity. }
  rewrite Hg. cbn [sum_idx].
  rewrite sumR_ext with (g := fun a => sumR (width po) (fun p =>
    sumR (width po) (fun q => get3 g a p q * sumR nr (fun r => sumR nr (fun s =>
      get3 po r a p * get2 h r s * get3 po s a q))))).
  - rewrite adjoint_sums. unfold contrib. rewrite Hb. reflexivity.
  - intros a Ha. apply sumR_ext; intros p Hp. apply sumR_ext; intros q Hq.
    fold (get3 g a p q). fold (get3 (pdm_of h po) a p q).
    unfold pdm_of. rewrite Hb. cbn [ix nth].
    now rewrite get3_build3 by assumption.
Qed.

Lemma adjoint_list shells grads h :
  Forall2 (fits nr na) shells grads -> Forall wf grads -> shape h = [nr; nr] ->
  list_dot grads (map (pdm_of h) shells)
  = sumR nr (fun r => sumR nr (fun s =>
      total_contrib shells grads r s * get2 h r s)).
Proof.
  intros Hfit Hwf Hh.
  induction Hfit as [|po g shells grads Hpg _ IH].
  - cbn [list_dot combine fold_right map total_contrib].
    rewrite sumR_ext with (g := fun _ => 0); [now rewrite sumR_zero|].
    intros r _. rewrite sumR_ext with (g := fun _ => 0); [apply sumR_zero|].
    intros s _. ring.
  - inversion Hwf as [|? ? Hg Hgs]; subst.
    unfold list_dot. cbn [map combine fold_right fst snd total_contrib].
    fold (list_dot grads (map (pdm_of h) shells)).
    rewrite (IH Hgs), (adjoint_block po g h Hpg Hg Hh).
    rewrite <- sumR_plus. apply sumR_ext; intros r _.
    rewrite <- sumR_plus. apply sumR_ext; intros s _. ring.
Qed.

Lemma grads_from_wf g eigs : forall off, Forall wf (grads_from g off eigs).
Proof.
  induction eigs as [|e eigs IH]; intros off; constructor; [apply wf_build | apply IH].
Qed.

Lemma dot_matrix v h :
  wf v -> wf h -> shape v = [nr; nr] -> shape h = [nr; nr] ->
  dot v h = sumR nr (fun r => sumR nr (fun s => get2 v r s * get2 h r s)).
Proof.
  intros Hv Hh Hsv Hsh. rewrite dot_sum_idx by congruence.
  rewrite Hsv. reflexivity.
Qed.

End ChainRule.

Section GradientCorrectness.

Variable syev : bool -> ndarray -> ndarray * ndarray.

(** C1: where reverse-mode differentiation returns the gradient of the
    correction energy with respect to the projected density blocks (along
    symmetric directions, the ones a symmetric density matrix can move in),
    the matrix [t_get_ec] returns is the derivative of the correction energy
    with respect to the density matrix: along every symmetric direction the
    energy has the derivative [<V_c, direction>], and its derivative with
    respect to the entry [(r, s)] (moved together with [(s, r)]) is
    [V_c[r, s]].  Where the differentiation is exact along all directions,
    the same holds along all directions and for every single entry. *)
Theorem C1_potential_is_gradient hf model bas self d :
  DeepSCF_init hf model bas = Ok self ->
  t_proj_shells self <> [] ->
  shape d = [nao (mol hf); nao (mol hf)] ->
  autograd_exact_on sym_block syev (net self)
    (map (pdm_of d) (t_proj_shells self)) ->
  exists ec vc,
    t_get_ec syev self d = Ok (ec, vc)
    /\ energy_of syev self d = ec
    /\ (forall h, shape h = [nao (mol hf); nao (mol hf)] -> wf h -> sym_matrix h ->
          derivable_pt_lim (fun t => energy_of syev self (axpy d t h)) 0 (dot vc h))
    /\ (forall r s, (r < nao (mol hf))%nat -> (s < nao (mol hf))%nat ->
          derivable_pt_lim
            (fun t => energy_of syev self (axpy d t (sym_unit (nao (mol hf)) r s)))
            0 (get2 vc r s))
    /\ (autograd_exact_on (fun _ => True) syev (net self)
          (map (pdm_of d) (t_proj_shells self)) ->
        (forall h, shape h = [nao (mol hf); nao (mol hf)] -> wf h ->
           derivable_pt_lim (fun t => energy_of syev self (axpy d t h)) 0 (dot vc h))
        /\ (forall r s, (r < nao (mol hf))%nat -> (s < nao (mol hf))%nat ->
              derivable_pt_lim
                (fun t => energy_of syev self
                   (axpy d t (unit_at [nao (mol hf); nao (mol hf)]
                                (ravel [nao (mol hf); nao (mol hf)] [r; s]))))
                0 (get2 vc r s))).
Proof.
  intros Hinit Hne Hd Hexact.
  pose proof (shells_blocks _ _ _ _ Hinit) as Hb.
  pose proof (grad_dms_fits syev _ _ _ _ Hinit d) as Hfit.
  destruct (reconstruct_ok _ _ _ _ Hne Hfit) as (_ & Hsh & Hwf & Hget).
  set (vc := vc_of (t_proj_shells self) (grad_dms_of syev self d)) in *.
  assert (Hsymvc : forall r s, (r < nao (mol hf))%nat -> (s < nao (mol hf))%nat ->
            get2 vc r s = get2 vc s r).
  { intros r s Hr Hs. rewrite !Hget by assumption.
    apply total_contrib_sym with (nr := nao (mol hf)) (na := natm (mol hf));
      [exact Hfit | apply grads_from_sym]. }
  assert (Hdir : forall okdir : ndarray -> Prop,
            autograd_exact_on okdir syev (net self)
              (map (pdm_of d) (t_proj_shells self)) ->
            forall h, shape h = [nao (mol hf); nao (mol hf)] -> wf h ->
              (forall po, In po (t_proj_shells self) -> okdir (pdm_of h po)) ->
              derivable_pt_lim (fun t => energy_of syev self (axpy d t h)) 0
                               (dot vc h)).
  { intros okdir Hex h Hh Hwfh Hok.
    apply derivable_pt_lim_ext
      with (f := fun t => block_energy syev (net self)
                   (list_axpy (map (pdm_of d) (t_proj_shells self)) t
                              (map (pdm_of h) (t_proj_shells self)))).
    - intros t. unfold energy_of.
      rewrite (t_get_ec_ok syev _ _ _ _ Hinit (axpy d t h)) by assumption.
      unfold ceig_of, eigvals_of, block_energy.
      now rewrite (pdms_axpy _ _ _ d t h Hb Hd).
    - replace (dot vc h)
        with (list_dot (block_grads syev (net self)
                          (map (pdm_of d) (t_proj_shells self)))
                       (map (pdm_of h) (t_proj_shells self))).
      + apply Hex. now apply pdms_directions.
      + change (block_grads syev (net self) (map (pdm_of d) (t_proj_shells self)))
          with (grad_dms_of syev self d).
        rewrite (adjoint_list _ _ _ _ h Hfit) by (try apply grads_from_wf; assumption).
        rewrite (dot_matrix (nao (mol hf)) vc h) by assumption.
        apply sumR_ext; intros r Hr. apply sumR_ext; intros s Hs.
        now rewrite Hget. }
  assert (Hsymdir : forall h, shape h = [nao (mol hf); nao (mol hf)] -> wf h ->
            sym_matrix h ->
            derivable_pt_lim (fun t => energy_of syev self (axpy d t h)) 0 (dot vc h)).
  { intros h Hh Hwfh Hsym. apply (Hdir sym_block Hexact h Hh Hwfh).
    intros po Hpo. rewrite Forall_forall in Hb.
    exact (pdm_sym _ _ po h (Hb po Hpo) Hh Hsym). }
  exists (forward (net self) (ceig_of syev self d)), vc.
  split; [now apply t_get_ec_ok with (hf := hf) (model := model) (bas := bas)|].
  split.
  { unfold energy_of.
    now rewrite (t_get_ec_ok syev _ _ _ _ Hinit d Hd Hne). }
  split; [exact Hsymdir|].
  split.
  - intros r s Hr Hs.
    replace (get2 vc r s) with (dot vc (sym_unit (nao (mol hf)) r s)).
    + apply Hsymdir; [reflexivity | apply wf_build |].
      unfold sym_matrix, sym_unit. norm_shapes. intros i j Hi Hj.
      rewrite !get2_build2 by assumption.
      rewrite (andb_comm (j =? r)%nat), (andb_comm (j =? s)%nat).
      unfold Rdiv. ring.
    + rewrite (dot_sym_unit (nao (mol hf)) vc r s Hwf Hsh Hr Hs).
      rewrite <- (Hsymvc r s Hr Hs). field.
  - intros Hall. split.
    + intros h Hh Hwfh. now apply (Hdir (fun _ => True) Hall h Hh Hwfh).
    + intros r s Hr Hs.
      replace (get2 vc r s)
        with (dot vc (unit_at [nao (mol hf); nao (mol hf)]
                        (ravel [nao (mol hf); nao (mol hf)] [r; s]))).
      * apply (Hdir (fun _ => True) Hall); [reflexivity | apply wf_unit_at | easy].
      * rewrite <- Hsh. rewrite dot_unit_at.
        -- reflexivity.
        -- exact Hwf.
        -- rewrite Hsh. apply ravel_lt. solve_inb.
Qed.

End GradientCorrectness.


Lemma affine_derivable a b x : derivable_pt_lim (fun t => a + b * t) x b.
Proof.
  intros eps Heps. exists (mkposreal 1 Rlt_0_1). intros h Hh _.
  replace ((a + b * (x + h) - (a + b * x)) / h - b) with 0 by (field; exact Hh).
  now rewrite Rabs_R0.
Qed.

Lemma toy_autograd_exact (okdir : ndarray -> Prop) :
  autograd_exact_on okdir syev_diag test_model
    (map (pdm_of toy_dm) (t_proj_shells toy_self)).
Proof.
  intros hs Hhs.
  inversion Hhs as [|m1 h1 ms1 hs1 (Hs1 & Hw1 & _) Hrest1 E1 E2]; subst.
  inversion Hrest1 as [|m2 h2 ms2 hs2 (Hs2 & Hw2 & _) Hrest2 E3 E4]; subst.
  inversion Hrest2; subst.
  destruct h1 as [sh1 dat1], h2 as [sh2 dat2].
  cbn [shape] in Hs1, Hs2. unfold wf in Hw1, Hw2. cbn [shape data] in Hw1, Hw2.
  subst sh1 sh2.
  destruct dat1 as [|x1 [|? ?]]; try discriminate.
  destruct dat2 as [|x2 [|? ?]]; try discriminate.
  clear Hhs Hw1 Hw2 Hrest1 Hrest2.
  apply derivable_pt_lim_ext
    with (f := fun t => block_energy syev_diag test_model
                          (map (pdm_of toy_dm) (t_proj_shells toy_self))
                        + (/ 1000 * x1 + / 1000 * x2) * t).
  - intros t. cbv -[IZR Rplus Rmult Rinv Rminus Ropp Rdiv]. ring.
  - replace (list_dot _ _) with (/ 1000 * x1 + / 1000 * x2)
      by (cbv -[IZR Rplus Rmult Rinv Rminus Ropp Rdiv]; ring).
    apply affine_derivable.
Qed.

Lemma C1_witness :
  exists ec vc,
    t_get_ec syev_diag toy_self toy_dm = Ok (ec, vc)
    /\ derivable_pt_lim
         (fun t => energy_of syev_diag toy_self (axpy toy_dm t (sym_unit 2 0 1)))
         0 (get2 vc 0 1)
    /\ derivable_pt_lim
         (fun t => energy_of syev_diag toy_self
            (axpy toy_dm t (unit_at [2; 2]%nat (ravel [2; 2]%nat [0; 1]%nat))))
         0 (get2 vc 0 1).
Proof.
  destruct (C1_potential_is_gradient syev_diag toy_hf test_model toy_basis
              toy_self toy_dm toy_init) as (ec & vc & Hok & _ & _ & Hsym & Hall).
  - discriminate.
  - reflexivity.
  - exact (toy_autograd_exact sym_block).
  - exists ec, vc. split; [exact Hok|]. split.
    + apply (Hsym 0%nat 1%nat); simpl; lia.
    + apply (proj2 (Hall (toy_autograd_exact (fun _ => True))) 0%nat 1%nat);
        simpl; lia.
Defined.

(* ================================================================== *)
(** * The p-shell instance: a degenerate block *)

(** The solver is exact on the blocks [diag(x, 0, 0)] it is given: its
    eigenvalues ascend, its eigenvectors are orthonormal, and
    [M . V = V . diag(w)]. *)
Lemma syev_sorted_exact b x :
  let m := mk_nd [3; 3]%nat [x; 0; 0; 0; 0; 0; 0; 0; 0] in
  let w := fst (syev_sorted b m) in
  let v := snd (syev_sorted b m) in
  ascending 3 w
  /\ (forall p j, (p < 3)%nat -> (j < 3)%nat ->
        sumR 3 (fun q => get2 m p q * get2 v q j) = get1 w j * get2 v p j)
  /\ (forall i j, (i < 3)%nat -> (j < 3)%nat ->
        sumR 3 (fun p => get2 v p i * get2 v p j) = if (i =? j)%nat then 1 else 0).
Proof.
  intros m w v. subst m w v. unfold syev_sorted.
  change (get2 (mk_nd [3; 3]%nat [x; 0; 0; 0; 0; 0; 0; 0; 0]) 0 0) with x.
  destruct (Rlt_dec 0 x) as [Hx|Hx]; cbn [fst snd]; repeat split.
  - intros [|[|[|i]]] [|[|[|j]]] Hij Hj; try lia; eval_arrays; lra.
  - intros [|[|[|p]]] [|[|[|j]]] Hp Hj; try lia; eval_arrays; ring.
  - intros [|[|[|i]]] [|[|[|j]]] Hi Hj; try lia; eval_arrays; ring.
  - intros [|[|[|i]]] [|[|[|j]]] Hij Hj; try lia; eval_arrays; lra.
  - intros [|[|[|p]]] [|[|[|j]]] Hp Hj; try lia; eval_arrays; ring.
  - intros [|[|[|i]]] [|[|[|j]]] Hi Hj; try lia; eval_arrays; ring.
Qed.

(** The gradient of the model is exact. *)
Lemma pick_last_gradient : is_gradient (forward pick_last) (backward pick_last).
Proof.
  intros x Hx. cbn [pick_last forward backward].
  split; [apply wf_unit_at|]. split; [reflexivity|].
  intros h Hh Hs. unfold dot, unit_at. cbn [data].
  rewrite length_map, length_seq.
  destruct (Nat.lt_ge_cases 2 (numel (shape x))) as [Hlt|Hge].
  - rewrite sumR_ext
      with (g := fun k => if (k =? 2)%nat then nth k (data h) 0 else 0).
    2:{ intros k Hk. rewrite nth_tabulate by assumption.
        destruct (k =? 2)%nat; ring. }
    rewrite (sumR_pick (numel (shape x)) 2 (fun k => nth k (data h) 0) Hlt).
    apply derivable_pt_lim_ext
      with (f := fun t => nth 2 (data x) 0 + nth 2 (data h) 0 * t).
    + intros t. unfold axpy, build. cbn [data].
      rewrite nth_tabulate by assumption.
      unfold get. rewrite Hs. rewrite ravel_unravel by assumption. ring.
    + apply affine_derivable.
  - rewrite sumR_ext with (g := fun _ => 0).
    2:{ intros k Hk. rewrite nth_tabulate by assumption.
        destruct (Nat.eqb_spec k 2); [lia | ring]. }
    rewrite sumR_zero.
    apply derivable_pt_lim_ext with (f := fun _ => 0).
    + intros t. symmetry. apply nth_overflow.
      unfold axpy, build. cbn [data]. now rewrite length_map, length_seq.
    + apply (derivable_pt_lim_const 0).
Qed.

Lemma p_energy t :
  energy_of syev_sorted p_self (axpy (p_dm 0) t (unit_at [1; 1]%nat 0)) = Rmax 0 t.
Proof.
  eval_arrays.
  destruct (Rlt_dec 0 _) as [H|H]; eval_arrays;
    unfold Rmax; destruct (Rle_dec 0 t); lra.
Qed.

Lemma p_potential :
  t_get_ec syev_sorted p_self (p_dm 0) = Ok (0, mk_nd [1; 1]%nat [0]).
Proof.
  eval_arrays.
  destruct (Rlt_dec 0 _) as [H|H]; [exfalso; lra|].
  eval_arrays. do 4 f_equal. ring.
Qed.

(** The function [max(0, t)] has no derivative at 0. *)
Lemma Rmax_not_derivable l : ~ derivable_pt_lim (fun t => Rmax 0 t) 0 l.
Proof.
  intros H.
  destruct (H (1 / 2)) as [[delta Hdelta] Hd]; [lra|]. cbn [pos] in Hd.
  assert (Hpos : Rabs ((Rmax 0 (0 + delta / 2) - Rmax 0 0) / (delta / 2) - l) < 1 / 2).
  { apply Hd; [lra|]. rewrite Rabs_right; lra. }
  assert (Hneg : Rabs ((Rmax 0 (0 + - (delta / 2)) - Rmax 0 0) / (- (delta / 2)) - l)
                 < 1 / 2).
  { apply Hd; [lra|]. rewrite Rabs_left; lra. }
  rewrite Rplus_0_l in Hpos, Hneg.
  rewrite (Rmax_right 0 (delta / 2)) in Hpos by lra.
  rewrite (Rmax_left 0 (- (delta / 2))) in Hneg by lra.
  rewrite (Rmax_left 0 0) in Hpos, Hneg by lra.
  replace ((delta / 2 - 0) / (delta / 2)) with 1 in Hpos by (field; lra).
  replace ((0 - 0) / - (delta / 2)) with 0 in Hneg by (field; lra).
  apply Rabs_def2 in Hpos, Hneg. lra.
Qed.

(** C1 as stated fails where a projected block has a degenerate eigenvalue:
    for the density matrix [[0]] of the p-shell instance (a symmetric
    matrix of the expected size, with an exact eigen-solver and a linear
    model) [t_get_ec] returns the potential [[0]], while the correction
    energy, [max(0, x)] as a function of the entry [x], has no derivative
    at all there. *)
Lemma C1_counterexample :
  DeepSCF_init p_hf pick_last p_basis = Ok p_self
  /\ t_get_ec syev_sorted p_self (p_dm 0) = Ok (0, mk_nd [1; 1]%nat [0])
  /\ (forall x, energy_of syev_sorted p_self (p_dm x) = Rmax 0 x)
  /\ (forall l, ~ derivable_pt_lim
        (fun t => energy_of syev_sorted p_self
                    (axpy (p_dm 0) t (unit_at [1; 1]%nat 0))) 0 l).
Proof.
  split; [reflexivity|]. split; [exact p_potential|]. split.
  - intros x. eval_arrays.
    destruct (Rlt_dec 0 _) as [H|H]; eval_arrays;
      unfold Rmax; destruct (Rle_dec 0 x); lra.
  - intros l H. apply (Rmax_not_derivable l).
    apply derivable_pt_lim_ext
      with (f := fun t => energy_of syev_sorted p_self
                            (axpy (p_dm 0) t (unit_at [1; 1]%nat 0))).
    + exact p_energy.
    + exact H.
Qed.

(* ================================================================== *)
(** * Further properties: the construction of the engine *)

Section Construction.

(** X1: when the integral matrix has [natm * n] columns, [gen_proj_ovlp]
    returns the orbitals x atoms x [n] tensor that reads column
    [a * n + p] of the matrix as entry [(a, p)]: the columns of one atom
    are consecutive. *)
Theorem X1_gen_proj_ovlp_layout (m : Mole) (bas : list Shell) (n : nat) :
  natm m <> 0%nat ->
  shape (intor_cross m bas) = [nao m; (natm m * n)%nat] ->
  wf (intor_cross m bas) ->
  exists ovlp,
    gen_proj_ovlp m bas = Ok ovlp
    /\ shape ovlp = [nao m; natm m; n] /\ wf ovlp
    /\ forall r a p, (r < nao m)%nat -> (a < natm m)%nat -> (p < n)%nat ->
         get3 ovlp r a p = get2 (intor_cross m bas) r (a * n + p).
Proof.
  intros Hna Hsh Hwf. unfold gen_proj_ovlp.
  destruct (Nat.eqb_spec (natm m) 0) as [|_]; [contradiction|].
  rewrite Hsh. cbn [ix nth].
  rewrite (Nat.mul_comm (natm m) n), Nat.div_mul by assumption.
  unfold np_reshape. unfold wf in Hwf. rewrite Hsh in Hwf.
  assert (Hnum : numel [nao m; natm m; n] = length (data (intor_cross m bas))).
  { rewrite Hwf. cbn [numel fold_right]. ring. }
  rewrite (proj2 (Nat.eqb_eq _ _) Hnum).
  eexists. split; [reflexivity|]. split; [reflexivity|].
  split; [unfold wf; cbn [shape data]; now rewrite Hnum|].
  intros r a p Hr Ha Hp. unfold get3, get2, get. cbn [shape data]. rewrite Hsh.
  f_equal. cbn [ravel numel fold_right]. ring.
Qed.

Lemma X1_witness :
  exists ovlp, gen_proj_ovlp toy_mol toy_basis = Ok ovlp
               /\ get3 ovlp 1 0 1 = get2 (intor_cross toy_mol toy_basis) 1 1.
Proof.
  destruct (X1_gen_proj_ovlp_layout toy_mol toy_basis 2)
    as (ovlp & Hok & _ & _ & Hget).
  - discriminate.
  - reflexivity.
  - reflexivity.
  - exists ovlp. split; [exact Hok|]. apply (Hget 1%nat 0%nat 1%nat); simpl; lia.
Defined.

(** X2: [gen_proj_ovlp] raises [ZeroDivisionError] for a molecule without
    atoms, and [ValueError] (the reshape) when the number of columns of the
    integral matrix is not a multiple of the number of atoms. *)
Theorem X2_gen_proj_ovlp_errors (m : Mole) (bas : list Shell) (tnao : nat) :
  shape (intor_cross m bas) = [nao m; tnao] ->
  wf (intor_cross m bas) ->
  (natm m = 0%nat -> gen_proj_ovlp m bas = Raise ZeroDivisionError)
  /\ (natm m <> 0%nat -> nao m <> 0%nat -> (tnao mod natm m)%nat <> 0%nat ->
      gen_proj_ovlp m bas = Raise ValueError).
Proof.
  intros Hsh Hwf. unfold gen_proj_ovlp. split.
  - intros ->. reflexivity.
  - intros Hna Hnao Hmod.
    destruct (Nat.eqb_spec (natm m) 0) as [|_]; [contradiction|].
    rewrite Hsh. cbn [ix nth]. unfold np_reshape.
    unfold wf in Hwf. rewrite Hsh in Hwf. rewrite Hwf.
    destruct (Nat.eqb_spec (numel [nao m; natm m; (tnao / natm m)%nat])
                           (numel [nao m; tnao])) as [E|]; [|reflexivity].
    exfalso. cbn [numel fold_right] in E.
    pose proof (Nat.div_mod_eq tnao (natm m)) as Hdm.
    assert (natm m * (tnao / natm m) < tnao)%nat by lia.
    nia.
Qed.

Lemma X2_witness :
  gen_proj_ovlp (mk_mole 2 1 (fun _ => mk_nd [1; 3]%nat [1; 2; 3])) toy_basis
  = Raise ValueError.
Proof.
  apply (X2_gen_proj_ovlp_errors
           (mk_mole 2 1 (fun _ => mk_nd [1; 3]%nat [1; 2; 3])) toy_basis 3);
    try reflexivity; simpl; lia.
Defined.

Lemma gen_proj_ovlp_shape m bas ovlp :
  gen_proj_ovlp m bas = Ok ovlp ->
  shape ovlp = [nao m; natm m; width ovlp].
Proof.
  unfold gen_proj_ovlp, np_reshape.
  destruct (natm m =? 0)%nat; [discriminate|].
  destruct (_ =? _)%nat; [|discriminate].
  intros H. injection H as <-. reflexivity.
Qed.

(** X3: the constructor passes on what [gen_proj_ovlp] raises; it raises
    [RuntimeError] (the split) when the section widths
    [(2l+1) * (number of rows)] of the basis do not add up to the number of
    projectors per atom; otherwise it returns an engine that holds the
    solver, the model, the basis and the tensor as given, with one block
    and one outer product per section. *)
Theorem X3_init_outcome (hf : RHF) (model : QCNet) (bas : list Shell) :
  (forall e, gen_proj_ovlp (mol hf) bas = Raise e ->
     DeepSCF_init hf model bas = Raise e)
  /\ (forall ovlp, gen_proj_ovlp (mol hf) bas = Ok ovlp ->
      (list_sum (make_shell_sec bas) <> width ovlp ->
         DeepSCF_init hf model bas = Raise RuntimeError)
      /\ (list_sum (make_shell_sec bas) = width ovlp ->
          exists self,
            DeepSCF_init hf model bas = Ok self
            /\ base self = hf /\ net self = model /\ basis self = bas
            /\ shell_sec self = make_shell_sec bas
            /\ t_proj_ovlp self = ovlp
            /\ length (t_proj_shells self) = length (make_shell_sec bas)
            /\ length (t_proj_aos self) = length (t_proj_shells self))).
Proof.
  split.
  - intros e He. unfold DeepSCF_init. now rewrite He.
  - intros ovlp Hov. pose proof (gen_proj_ovlp_shape _ _ _ Hov) as Hsh.
    unfold DeepSCF_init. rewrite Hov. cbn [bind].
    unfold torch_split. rewrite Hsh. fold (width ovlp).
    change (last [nao (mol hf); natm (mol hf); width ovlp] 0%nat) with (width ovlp).
    split.
    + intros Hne.
      destruct (Nat.eqb_spec (list_sum (make_shell_sec bas)) (width ovlp));
        [contradiction | reflexivity].
    + intros Heq. rewrite (proj2 (Nat.eqb_eq _ _) Heq). cbn [bind].
      rewrite (mapM_map _ pao_of).
      * cbn [bind]. eexists. split; [reflexivity|]. cbn.
        repeat split.
        -- apply split_from_length.
        -- now rewrite length_map.
      * intros po Hin.
        pose proof (split_from_blocks ovlp _ _ _ (make_shell_sec bas) 0%nat Hsh) as Hb.
        rewrite Forall_forall in Hb. eapply einsum_pao_ok. now apply Hb.
Qed.

(** A basis entry with two rows and one contracted function: two sections
    are asked of a tensor with one projector. *)
Lemma X3_witness :
  DeepSCF_init
    (mk_rhf (mk_mole 1 2 (fun _ => mk_nd [2; 1]%nat [1; 3]))
            (fun dm _ _ => Ok dm) toy_dm toy_dm)
    test_model [mk_shell 0 [[1; 1]; [2; 1]]]
  = Raise RuntimeError.
Proof.
  refine (proj1 (proj2 (X3_init_outcome
    (mk_rhf (mk_mole 1 2 (fun _ => mk_nd [2; 1]%nat [1; 3]))
            (fun dm _ _ => Ok dm) toy_dm toy_dm)
    test_model [mk_shell 0 [[1; 1]; [2; 1]]]) _ eq_refl) _).
  vm_compute. discriminate.
Defined.

End Construction.

(* ================================================================== *)
(** * Further properties: projection, descriptors and potential *)

Section PathProperties.

Variable syev : bool -> ndarray -> ndarray * ndarray.

Lemma no_shells_raise self d :
  t_proj_shells self = [] ->
  make_eig syev self (Some d) = Raise RuntimeError
  /\ t_get_ec syev self d = Raise RuntimeError.
Proof.
  intros H. unfold make_eig, t_get_ec, t_ceig, t_proj_dms. rewrite H.
  split; reflexivity.
Qed.

(** X4: the empty basis is accepted by the constructor: when the molecule
    has an atom and its integrals against the empty basis form the
    orbitals x 0 matrix, the constructor returns an engine without shell
    blocks and without products; on that engine [make_eig], [t_get_ec] and
    [get_ec] raise [RuntimeError] (the concatenation of no tensors) for
    every density matrix handed to them. *)
Theorem X4_empty_basis hf model :
  natm (mol hf) <> 0%nat ->
  shape (intor_cross (mol hf) []) = [nao (mol hf); 0%nat] ->
  wf (intor_cross (mol hf) []) ->
  exists self,
    DeepSCF_init hf model [] = Ok self
    /\ shell_sec self = [] /\ t_proj_shells self = [] /\ t_proj_aos self = []
    /\ shape (t_proj_ovlp self) = [nao (mol hf); natm (mol hf); 0%nat]
    /\ forall d,
         make_eig syev self (Some d) = Raise RuntimeError
         /\ t_get_ec syev self d = Raise RuntimeError
         /\ get_ec syev self (Some d) = Raise RuntimeError.
Proof.
  intros Hna Hsh Hwf.
  assert (Hgen : gen_proj_ovlp (mol hf) []
                 = Ok (mk_nd [nao (mol hf); natm (mol hf); 0%nat]
                             (data (intor_cross (mol hf) [])))).
  { unfold gen_proj_ovlp, np_reshape.
    destruct (Nat.eqb_spec (natm (mol hf)) 0); [contradiction|].
    rewrite Hsh. cbn [ix nth]. rewrite Nat.Div0.div_0_l.
    unfold wf in Hwf. rewrite Hsh in Hwf. rewrite Hwf.
    replace (numel [nao (mol hf); natm (mol hf); 0%nat]) with 0%nat
      by (rewrite !numel_cons; cbn [numel]; lia).
    replace (numel [nao (mol hf); 0%nat]) with 0%nat
      by (rewrite !numel_cons; cbn [numel]; lia).
    reflexivity. }
  eexists. split.
  - unfold DeepSCF_init. rewrite Hgen. reflexivity.
  - cbn [shell_sec t_proj_shells t_proj_aos t_proj_ovlp shape].
    repeat split; apply (no_shells_raise _ d); reflexivity.
Qed.

(** X5: a density matrix with an axis of length 1 is not rejected but
    broadcast: when the axes of [d] fit the orbital axis, [make_eig] and
    [t_get_ec] return (or raise) exactly what they do for the
    orbitals x orbitals matrix [d] expands to, whose entry at [r, s] is the
    entry of [d] at [r, s] with 0 in place of the index on an axis of
    length 1. *)
Theorem X5_broadcast_density_matrix hf model bas self d :
  DeepSCF_init hf model bas = Ok self ->
  dm_fits (nao (mol hf)) d = true ->
  shape (dm_expand (nao (mol hf)) d) = [nao (mol hf); nao (mol hf)]
  /\ make_eig syev self (Some d)
     = make_eig syev self (Some (dm_expand (nao (mol hf)) d))
  /\ t_get_ec syev self d = t_get_ec syev self (dm_expand (nao (mol hf)) d)
  /\ (nao (mol hf) <> 1%nat ->
      forall r s, (r < nao (mol hf))%nat -> (s < nao (mol hf))%nat ->
        get2 (dm_expand (nao (mol hf)) d) r s
        = get2 d (if (ix (shape d) 0 =? 1)%nat then 0%nat else r)
                 (if (ix (shape d) 1 =? 1)%nat then 0%nat else s)).
Proof.
  intros Hinit Hd.
  destruct (paths_expand syev hf model bas self d Hinit Hd) as [H1 H2].
  split; [apply dm_expand_shape|]. split; [exact H1|]. split; [exact H2|].
  intros Hn r s Hr Hs. unfold dm_expand.
  destruct (Nat.eqb_spec (nao (mol hf)) 1); [contradiction|].
  now rewrite get2_build2 by assumption.
Qed.

(** X6: the projected density blocks of a symmetric density matrix are
    symmetric, one batch of [atoms] square blocks of the block's width for
    every shell block. *)
Theorem X6_projected_blocks_symmetric hf model bas self d :
  DeepSCF_init hf model bas = Ok self ->
  shape d = [nao (mol hf); nao (mol hf)] ->
  sym_matrix d ->
  exists ms,
    t_proj_dms self d = Ok ms
    /\ Forall sym_block ms
    /\ Forall2 (fun po m => shape m = [natm (mol hf); width po; width po])
               (t_proj_shells self) ms.
Proof.
  intros Hinit Hd Hsym.
  pose proof (shells_blocks _ _ _ _ Hinit) as Hb.
  exists (map (pdm_of d) (t_proj_shells self)).
  split; [now apply proj_dms_ok with (hf := hf) (model := model) (bas := bas)|].
  split.
  - apply Forall_forall. intros m Hm.
    apply in_map_iff in Hm as (po & <- & Hpo).
    rewrite Forall_forall in Hb.
    exact (pdm_sym _ _ po d (Hb po Hpo) Hd Hsym).
  - induction Hb as [|po shells Hpo _ IH]; constructor; [|exact IH].
    exact (pdm_shape po d _ _ Hpo).
Qed.

(** X7: the projection is linear in the density matrix: the blocks of
    [d + t * h] are the blocks of [d] plus [t] times the blocks of [h]. *)
Theorem X7_projection_linear hf model bas self d h t ms hs :
  DeepSCF_init hf model bas = Ok self ->
  shape d = [nao (mol hf); nao (mol hf)] ->
  shape h = [nao (mol hf); nao (mol hf)] ->
  t_proj_dms self d = Ok ms ->
  t_proj_dms self h = Ok hs ->
  t_proj_dms self (axpy d t h) = Ok (list_axpy ms t hs).
Proof.
  intros Hinit Hd Hh Hms Hhs.
  pose proof (shells_blocks _ _ _ _ Hinit) as Hb.
  rewrite (proj_dms_ok _ _ _ _ Hinit d Hd) in Hms.
  rewrite (proj_dms_ok _ _ _ _ Hinit h Hh) in Hhs.
  injection Hms as <-. injection Hhs as <-.
  rewrite (proj_dms_ok _ _ _ _ Hinit (axpy d t h)) by exact Hd.
  now rewrite (pdms_axpy _ _ _ d t h Hb Hd).
Qed.

(** X8: the reconstruction is the transpose of the projection: the inner
    product of the potential [t_get_ec] returns with any matrix [h] is the
    sum over the shell blocks of the inner products of the gradient blocks
    with the projected blocks of [h]. *)
Theorem X8_reconstruction_is_adjoint hf model bas self d h :
  DeepSCF_init hf model bas = Ok self ->
  t_proj_shells self <> [] ->
  shape d = [nao (mol hf); nao (mol hf)] ->
  shape h = [nao (mol hf); nao (mol hf)] -> wf h ->
  exists ec vc ceig eigs hs,
    t_get_ec syev self d = Ok (ec, vc)
    /\ t_ceig syev self d = Ok (ceig, eigs)
    /\ t_proj_dms self h = Ok hs
    /\ dot vc h = list_dot (autograd_grad (net self) ceig eigs) hs.
Proof.
  intros Hinit Hne Hd Hh Hwf.
  pose proof (grad_dms_fits syev _ _ _ _ Hinit d) as Hfit.
  destruct (reconstruct_ok _ _ _ _ Hne Hfit) as (_ & Hsh & Hwfv & Hget).
  exists (forward (net self) (ceig_of syev self d)),
         (vc_of (t_proj_shells self) (grad_dms_of syev self d)),
         (ceig_of syev self d), (eigpairs_of syev self d),
         (map (pdm_of h) (t_proj_shells self)).
  split; [now apply t_get_ec_ok with (hf := hf) (model := model) (bas := bas)|].
  split; [now apply t_ceig_ok with (hf := hf) (model := model) (bas := bas)|].
  split; [now apply proj_dms_ok with (hf := hf) (model := model) (bas := bas)|].
  unfold autograd_grad. rewrite autograd_grads_from.
  fold (grad_dms_of syev self d).
  rewrite (adjoint_list _ _ _ _ h Hfit) by (try apply grads_from_wf; assumption).
  rewrite (dot_matrix (nao (mol hf)) _ h) by assumption.
  apply sumR_ext; intros r Hr. apply sumR_ext; intros s Hs.
  now rewrite Hget.
Qed.

End PathProperties.

Lemma X4_witness :
  exists self,
    DeepSCF_init bare_hf test_model [] = Ok self
    /\ make_eig syev_diag self (Some toy_dm) = Raise RuntimeError.
Proof.
  destruct (X4_empty_basis syev_diag bare_hf test_model)
    as (self & Hinit & _ & _ & _ & _ & Hraise).
  - cbv [bare_hf bare_mol mol natm]. discriminate.
  - reflexivity.
  - reflexivity.
  - exists self. split; [exact Hinit | apply Hraise].
Defined.

Lemma X5_witness :
  make_eig syev_diag toy_self (Some (mk_nd [1; 1]%nat [5]))
  = make_eig syev_diag toy_self (Some (dm_expand 2 (mk_nd [1; 1]%nat [5]))).
Proof.
  exact (proj1 (proj2 (X5_broadcast_density_matrix syev_diag toy_hf test_model
                         toy_basis toy_self (mk_nd [1; 1]%nat [5])
                         toy_init eq_refl))).
Defined.

Lemma X6_witness :
  exists ms, t_proj_dms toy_self toy_dm = Ok ms /\ Forall sym_block ms.
Proof.
  destruct (X6_projected_blocks_symmetric toy_hf test_model toy_basis toy_self
              toy_dm toy_init) as (ms & Hok & Hsym & _).
  - reflexivity.
  - intros r s Hr Hs.
    change (r < 2)%nat in Hr. change (s < 2)%nat in Hs.
    destruct r as [|[|r]]; [| |lia]; destruct s as [|[|s]]; try lia; reflexivity.
  - exists ms. split; [exact Hok | exact Hsym].
Defined.

Lemma X7_witness :
  exists ms hs,
    t_proj_dms toy_self toy_dm = Ok ms
    /\ t_proj_dms toy_self (zeros [2; 2]%nat) = Ok hs
    /\ t_proj_dms toy_self (axpy toy_dm 5 (zeros [2; 2]%nat))
       = Ok (list_axpy ms 5 hs).
Proof.
  eexists. eexists. split; [reflexivity|]. split; [reflexivity|].
  apply (X7_projection_linear toy_hf test_model toy_basis toy_self toy_dm
           (zeros [2; 2]%nat) 5 _ _ toy_init); reflexivity.
Defined.

Lemma X8_witness :
  exists ec vc, t_get_ec syev_diag toy_self toy_dm = Ok (ec, vc)
                /\ exists hs, t_proj_dms toy_self toy_dm = Ok hs.
Proof.
  destruct (X8_reconstruction_is_adjoint syev_diag toy_hf test_model toy_basis toy_self
              toy_dm toy_dm toy_init)
    as (ec & vc & ceig & eigs & hs & Hok & _ & Hhs & _).
  - discriminate.
  - reflexivity.
  - reflexivity.
  - reflexivity.
  - exists ec, vc. split; [exact Hok|]. exists hs. exact Hhs.
Defined.

(* ================================================================== *)
(** * Further properties: the energies *)

Section EnergyProperties.

Variable syev : bool -> ndarray -> ndarray * ndarray.

Lemma einsum_rank_raise a b :
  ndim b <> 2%nat -> np_einsum_ij_ji a b = Raise ValueError.
Proof.
  unfold ndim, np_einsum_ij_ji. intros H.
  destruct (shape a) as [|ni [|nj [|? ?]]]; try reflexivity.
  destruct (shape b) as [|nj' [|ni' [|? ?]]]; try reflexivity.
  now elim H.
Qed.

(** The energies of [energy_elec] when it has no usable potential and
    [get_veff] returns one. *)
Lemma energy_elec_recomputes hf model bas self dm h1e v0 :
  let D := match dm with Some d => d | None => make_rdm1 hf end in
  DeepSCF_init hf model bas = Ok self ->
  t_proj_shells self <> [] ->
  shape D = [nao (mol hf); nao (mol hf)] ->
  hf_get_veff hf D None None = Ok v0 -> shape v0 = shape D ->
  energy_elec syev self dm h1e None
  = (e <- energy_elec0 self dm h1e None ;;
     Ok (fst e + forward (net self) (ceig_of syev self D),
         snd e + forward (net self) (ceig_of syev self D))).
Proof.
  intros D Hinit Hne HD Hb Hv0.
  destruct (init_inv _ _ _ _ Hinit) as (Hbase & _).
  assert (Hb' : get_veff0 self D None None = Ok v0)
    by (unfold get_veff0; now rewrite Hbase).
  unfold energy_elec, energy_elec0, hf_energy_elec. rewrite Hbase. fold D.
  rewrite (get_veff_ok syev hf model bas self D None None v0 Hinit Hne HD Hb' Hv0).
  rewrite Hb'. cbn [bind tag_ec tag_v0].
  destruct (np_einsum_ij_ji _ D) as [e1|x]; [|reflexivity]. cbn [bind].
  destruct (np_einsum_ij_ji v0 D) as [c|x]; reflexivity.
Qed.

(** X9: on a potential that carries both tags, both energies of
    [energy_elec] are those [energy_elec0] returns for the tagged baseline
    potential, with the tagged correction energy added to each, and
    [energy_elec] fails exactly when [energy_elec0] does, with the same
    exception; adding the nuclear energy to the first gives [energy_tot0]
    plus the correction energy. *)
Theorem X9_energy_is_baseline_plus_correction self dm h1e vtot ec v0 enuc :
  energy_elec syev self dm h1e (Some (mk_tagged vtot (Some ec) (Some v0)))
  = (e <- energy_elec0 self dm h1e (Some v0) ;; Ok (fst e + ec, snd e + ec))
  /\ (e <- energy_elec syev self dm h1e (Some (mk_tagged vtot (Some ec) (Some v0))) ;;
      Ok (fst e + enuc))
     = (t <- energy_tot0 self enuc dm h1e (Some v0) ;; Ok (t + ec)).
Proof.
  unfold energy_tot0, energy_elec, energy_elec0, hf_energy_elec.
  cbn [tag_ec tag_v0 bind].
  destruct (np_einsum_ij_ji _ _) as [e1|x]; [|split; reflexivity]. cbn [bind].
  destruct (np_einsum_ij_ji v0 _) as [c|x]; [|split; reflexivity]. cbn [bind fst snd].
  split; [reflexivity|]. f_equal. ring.
Qed.

(** X10: without a potential, a constructed engine returns the energies of
    [energy_elec0] (which computes the baseline potential itself) with the
    correction energy of [get_ec] added to each. *)
Theorem X10_energy_without_potential hf model bas self dm h1e v0 :
  let D := match dm with Some d => d | None => make_rdm1 hf end in
  DeepSCF_init hf model bas = Ok self ->
  t_proj_shells self <> [] ->
  shape D = [nao (mol hf); nao (mol hf)] ->
  hf_get_veff hf D None None = Ok v0 -> shape v0 = shape D ->
  exists ec vc,
    get_ec syev self dm = Ok (ec, vc)
    /\ energy_elec syev self dm h1e None
       = (e <- energy_elec0 self dm h1e None ;; Ok (fst e + ec, snd e + ec)).
Proof.
  intros D Hinit Hne HD Hb Hv0.
  destruct (init_inv _ _ _ _ Hinit) as (Hbase & _).
  exists (forward (net self) (ceig_of syev self D)),
         (vc_of (t_proj_shells self) (grad_dms_of syev self D)).
  split.
  - unfold get_ec. rewrite Hbase. fold D.
    now apply t_get_ec_ok with (hf := hf) (model := model) (bas := bas).
  - exact (energy_elec_recomputes hf model bas self dm h1e v0 Hinit Hne HD Hb Hv0).
Qed.

(** X11: with a functional that is zero everywhere (nothing is asked of its
    gradient), [energy_elec] without a potential returns exactly what
    [energy_elec0] returns. *)
Theorem X11_zero_functional_energy hf model bas self dm h1e v0 :
  let D := match dm with Some d => d | None => make_rdm1 hf end in
  DeepSCF_init hf model bas = Ok self ->
  t_proj_shells self <> [] ->
  shape D = [nao (mol hf); nao (mol hf)] ->
  hf_get_veff hf D None None = Ok v0 -> shape v0 = shape D ->
  (forall x, forward (net self) x = 0) ->
  energy_elec syev self dm h1e None = energy_elec0 self dm h1e None.
Proof.
  intros D Hinit Hne HD Hb Hv0 Hzero.
  rewrite (energy_elec_recomputes hf model bas self dm h1e v0 Hinit Hne HD Hb Hv0).
  rewrite Hzero.
  destruct (energy_elec0 self dm h1e None) as [[e c]|x]; [|reflexivity].
  cbn [bind fst snd]. do 2 f_equal; ring.
Qed.

(** X12: a density matrix that is not of rank 2 never yields an energy:
    [energy_elec] raises the [AssertionError] of [get_veff] when it has to
    compute the potential, the [ValueError] of the contraction when the
    potential carries the energy tag, and [energy_elec0] on a given
    potential raises that [ValueError] too. *)
Theorem X12_energy_wrong_rank self dm h1e :
  let D := match dm with Some d => d | None => make_rdm1 (base self) end in
  ndim D <> 2%nat ->
  energy_elec syev self dm h1e None = Raise AssertionError
  /\ (forall t, tag_ec t = None ->
        energy_elec syev self dm h1e (Some t) = Raise AssertionError)
  /\ (forall t ec, tag_ec t = Some ec ->
        energy_elec syev self dm h1e (Some t) = Raise ValueError)
  /\ (forall v, energy_elec0 self dm h1e (Some v) = Raise ValueError).
Proof.
  intros D HD.
  assert (Hg : get_veff syev self (Some D) None None = Raise AssertionError).
  { unfold get_veff. destruct (Nat.eqb_spec (ndim D) 2); [contradiction|].
    reflexivity. }
  repeat split.
  - unfold energy_elec. fold D. now rewrite Hg.
  - intros t Ht. unfold energy_elec. fold D. now rewrite Ht, Hg.
  - intros t ec Ht. unfold energy_elec. fold D. rewrite Ht. cbn [bind].
    rewrite Ht. cbn [bind].
    now rewrite (einsum_rank_raise _ D HD).
  - intros v. unfold energy_elec0, hf_energy_elec. cbn [bind]. fold D.
    now rewrite (einsum_rank_raise _ D HD).
Qed.

(** X13: a potential that carries the energy tag but not the baseline
    potential is not recomputed: [energy_elec] never returns on it, and
    raises [AttributeError] when the core Hamiltonian and the density matrix
    are square of one size. *)
Theorem X13_energy_missing_baseline_tag self dm h1e vtot ec n :
  let D := match dm with Some d => d | None => make_rdm1 (base self) end in
  let H := match h1e with Some h => h | None => get_hcore (base self) end in
  is_ok (energy_elec syev self dm h1e (Some (mk_tagged vtot (Some ec) None))) = false
  /\ (shape D = [n; n] -> shape H = [n; n] ->
      energy_elec syev self dm h1e (Some (mk_tagged vtot (Some ec) None))
      = Raise AttributeError).
Proof.
  intros D H. unfold energy_elec. fold D. fold H. cbn [tag_ec tag_v0 bind].
  split.
  - destruct (np_einsum_ij_ji H D); reflexivity.
  - intros HD HH. unfold np_einsum_ij_ji. rewrite HH, HD, !bc_fit_refl.
    reflexivity.
Qed.

(** X14: whenever [get_veff] returns a potential, on a fresh call or on an
    update from a last potential, that potential carries as tags the
    correction energy of [get_ec] and the potential the baseline solver
    returned in that call; [energy_elec] on it returns the energies of
    [energy_elec0] for that baseline potential with that correction energy
    added, and this is what [energy_elec] computes without a potential when
    the baseline solver returns the same potential for a fresh start. *)
Theorem X14_potential_reused self dm dm_last vhf_last h1e v :
  let D := match dm with Some d => d | None => make_rdm1 (base self) end in
  get_veff syev self dm dm_last vhf_last = Ok v ->
  exists ec vc v0,
    get_ec syev self dm = Ok (ec, vc)
    /\ get_veff0 self D dm_last
         match vhf_last with Some t => tag_v0 t | None => None end = Ok v0
    /\ tag_ec v = Some ec /\ tag_v0 v = Some v0
    /\ energy_elec syev self dm h1e (Some v)
       = (e <- energy_elec0 self dm h1e (Some v0) ;; Ok (fst e + ec, snd e + ec))
    /\ (get_veff0 self D None None = Ok v0 ->
        energy_elec syev self dm h1e (Some v)
        = energy_elec syev self dm h1e None).
Proof.
  intros D Hv. unfold get_veff in Hv. fold D in Hv.
  destruct (negb (ndim D =? 2)%nat) eqn:Hnd; [discriminate|].
  apply bind_ok in Hv as (v0 & Hv0 & Hv).
  apply bind_ok in Hv as ([ec vc] & Hec & Hv).
  apply bind_ok in Hv as (vtot & Hadd & Hv).
  injection Hv as <-.
  exists ec, vc, v0.
  split; [exact Hec|]. split; [exact Hv0|].
  split; [reflexivity|]. split; [reflexivity|].
  assert (Htag : energy_elec syev self dm h1e
                   (Some (mk_tagged vtot (Some ec) (Some v0)))
                 = (e <- energy_elec0 self dm h1e (Some v0) ;;
                    Ok (fst e + ec, snd e + ec))).
  { unfold energy_elec, energy_elec0, hf_energy_elec.
    cbn [tag_ec tag_v0 bind].
    destruct (np_einsum_ij_ji _ _) as [e1|x]; [|reflexivity]. cbn [bind].
    destruct (np_einsum_ij_ji v0 _) as [c|x]; reflexivity. }
  split; [exact Htag|].
  intros Hfresh. rewrite Htag.
  assert (Hnew : get_veff syev self (Some D) None None
                 = Ok (mk_tagged vtot (Some ec) (Some v0))).
  { unfold get_veff. rewrite Hnd, Hfresh. cbn [bind].
    rewrite Hec. cbn [bind]. now rewrite Hadd. }
  unfold energy_elec at 1. fold D. rewrite Hnew. cbn [bind tag_ec tag_v0].
  unfold energy_elec0, hf_energy_elec. cbn [bind]. fold D.
  destruct (np_einsum_ij_ji _ D) as [e1|x]; [|reflexivity]. cbn [bind].
  destruct (np_einsum_ij_ji v0 D) as [c|x]; reflexivity.
Qed.

(** X15: when the baseline potential is a symmetric matrix of the size of
    the density matrix, so is the effective potential [get_veff] returns. *)
Theorem X15_effective_potential_symmetric hf model bas self d dm_last vhf_last v0 :
  DeepSCF_init hf model bas = Ok self ->
  t_proj_shells self <> [] ->
  shape d = [nao (mol hf); nao (mol hf)] ->
  get_veff0 self d dm_last
    match vhf_last with Some t => tag_v0 t | None => None end = Ok v0 ->
  shape v0 = shape d -> sym_matrix v0 ->
  exists v,
    get_veff syev self (Some d) dm_last vhf_last = Ok v
    /\ shape (arr v) = [nao (mol hf); nao (mol hf)]
    /\ sym_matrix (arr v).
Proof.
  intros Hinit Hne Hd Hbase Hv0 Hsym.
  pose proof (grad_dms_fits syev _ _ _ _ Hinit d) as Hfit.
  destruct (reconstruct_ok _ _ _ _ Hne Hfit) as (_ & Hsh & Hwf & Hget).
  eexists. split; [|split].
  - exact (get_veff_ok syev hf model bas self d dm_last vhf_last v0
             Hinit Hne Hd Hbase Hv0).
  - cbn [arr]. rewrite shape_build. now rewrite Hv0.
  - unfold sym_matrix. cbn [arr]. rewrite shape_build, Hv0, Hd. cbn [ix nth].
    intros r s Hr Hs. unfold get2. rewrite !get_build by solve_inb.
    fold (get2 v0 r s) (get2 v0 s r).
    fold (get2 (vc_of (t_proj_shells self) (grad_dms_of syev self d)) r s).
    fold (get2 (vc_of (t_proj_shells self) (grad_dms_of syev self d)) s r).
    rewrite !Hget by assumption.
    rewrite (Hsym r s) by (rewrite Hv0, Hd; assumption).
    f_equal.
    apply total_contrib_sym with (nr := nao (mol hf)) (na := natm (mol hf)).
    + exact Hfit.
    + apply grads_from_sym.
Qed.

End EnergyProperties.

Lemma X10_witness :
  exists ec vc,
    get_ec syev_diag toy_self (Some toy_dm) = Ok (ec, vc)
    /\ energy_elec syev_diag toy_self (Some toy_dm) None None
       = (e <- energy_elec0 toy_self (Some toy_dm) None None ;;
          Ok (fst e + ec, snd e + ec)).
Proof.
  apply (X10_energy_without_potential syev_diag toy_hf test_model toy_basis
           toy_self (Some toy_dm) None (zeros [2; 2]%nat) toy_init).
  - discriminate.
  - reflexivity.
  - reflexivity.
  - reflexivity.
Defined.

Lemma X11_witness :
  energy_elec syev_diag toy_zero_self (Some toy_dm) None None
  = energy_elec0 toy_zero_self (Some toy_dm) None None.
Proof.
  apply (X11_zero_functional_energy syev_diag toy_hf zero_model toy_basis
           toy_zero_self (Some toy_dm) None (zeros [2; 2]%nat) toy_zero_init).
  - discriminate.
  - reflexivity.
  - reflexivity.
  - reflexivity.
  - reflexivity.
Defined.

Lemma X12_witness :
  energy_elec syev_diag toy_self (Some (zeros [2%nat])) None None
  = Raise AssertionError.
Proof.
  apply (X12_energy_wrong_rank syev_diag toy_self (Some (zeros [2%nat])) None).
  cbv [ndim zeros build shape length]. discriminate.
Defined.

Lemma X13_witness :
  energy_elec syev_diag toy_self (Some toy_dm) None
    (Some (mk_tagged toy_dm (Some 7) None))
  = Raise AttributeError.
Proof.
  apply (X13_energy_missing_baseline_tag syev_diag toy_self (Some toy_dm) None
           toy_dm 7 2); reflexivity.
Defined.

Lemma X14_witness :
  exists v,
    get_veff syev_diag toy_self (Some toy_dm) (Some toy_dm) None = Ok v
    /\ energy_elec syev_diag toy_self (Some toy_dm) None (Some v)
       = energy_elec syev_diag toy_self (Some toy_dm) None None.
Proof.
  eexists. split.
  - exact (get_veff_ok syev_diag toy_hf test_model toy_basis toy_self toy_dm
             (Some toy_dm) None (zeros [2; 2]%nat) toy_init
             ltac:(discriminate) eq_refl eq_refl eq_refl).
  - destruct (X14_potential_reused syev_diag toy_self (Some toy_dm)
                (Some toy_dm) None None _
                (get_veff_ok syev_diag toy_hf test_model toy_basis toy_self
                   toy_dm (Some toy_dm) None (zeros [2; 2]%nat) toy_init
                   ltac:(discriminate) eq_refl eq_refl eq_refl))
      as (ec & vc & v0 & _ & Hv0 & _ & _ & _ & Hfresh).
    apply Hfresh. rewrite <- Hv0. reflexivity.
Defined.

Lemma X15_witness :
  exists v,
    get_veff syev_diag toy_self (Some toy_dm) None None = Ok v
    /\ sym_matrix (arr v).
Proof.
  destruct (X15_effective_potential_symmetric syev_diag toy_hf test_model
              toy_basis toy_self toy_dm None None (zeros [2; 2]%nat) toy_init)
    as (v & Hok & _ & Hsym).
  - discriminate.
  - reflexivity.
  - reflexivity.
  - reflexivity.
  - intros r s _ _. unfold get2. now rewrite !get_zeros.
  - exists v. split; [exact Hok | exact Hsym].
Defined.

(* ================================================================== *)
(** * Further properties: the default basis, the precomputed products and
      repeated calls *)

Section DefaultsAndCalls.

Variable syev : bool -> ndarray -> ndarray * ndarray.

(** X16: with the default basis every engine has 36 shell blocks, twelve of
    each of the widths 1, 3 and 5, that is [9 * len(_zeta) = 108] auxiliary
    functions per atom, and [make_eig] returns an atoms x 108 array for
    every density matrix of the expected size. *)
Theorem X16_default_basis hf model self :
  DeepSCF_init hf model DEFAULT_BASIS = Ok self ->
  map width (t_proj_shells self) = (repeat 1 12 ++ repeat 3 12 ++ repeat 5 12)%nat
  /\ length (t_proj_shells self) = 36%nat
  /\ n_proj self = (length _zeta * 9)%nat
  /\ n_proj self = 108%nat
  /\ forall d, shape d = [nao (mol hf); nao (mol hf)] ->
       exists E, make_eig syev self (Some d) = Ok E
                 /\ shape E = [natm (mol hf); 108%nat].
Proof.
  intros Hinit.
  destruct (init_inv _ _ _ _ Hinit) as (_ & _ & _ & Hsec & Hsh & Hsum & Hsp & _).
  assert (Hw : map width (t_proj_shells self) = make_shell_sec DEFAULT_BASIS).
  { rewrite Hsp, (split_from_widths _ _ _ _ _ _ Hsh). exact Hsec. }
  assert (Hn : n_proj self = 108%nat) by (rewrite <- Hsum, Hsec; reflexivity).
  assert (Hl : length (t_proj_shells self) = 36%nat).
  { rewrite <- (length_map width), Hw. reflexivity. }
  split; [exact Hw|]. split; [exact Hl|]. split; [rewrite Hn; reflexivity|].
  split; [exact Hn|].
  intros d Hd.
  assert (Hne : t_proj_shells self <> []).
  { intros E. rewrite E in Hl. discriminate. }
  exists (cat_of (eigvals_of syev self false d)).
  split; [now apply make_eig_ok with (hf := hf) (model := model) (bas := DEFAULT_BASIS)|].
  destruct (cat_ok (natm (mol hf)) (eigvals_of syev self false d)
              (eigvals_nonempty syev self false d Hne)
              (eigvals_is_eigs syev _ _ _ _ Hinit false d)) as [_ Hshape].
  rewrite Hshape, (eigvals_widths syev _ _ _ _ Hinit false d), Hw. reflexivity.
Qed.

(** X17: the constructor leaves one precomputed product per shell block, in
    the order of the blocks; the product of block [P] has the entries
    [P[r,a,p] * P[s,a,q]] at [r,s,a,p,q], and is unchanged when [r,p] and
    [s,q] are exchanged. *)
Theorem X17_products_follow_blocks hf model bas self :
  DeepSCF_init hf model bas = Ok self ->
  length (t_proj_aos self) = length (t_proj_shells self)
  /\ forall k, (k < length (t_proj_shells self))%nat ->
       let po := nth k (t_proj_shells self) (zeros []) in
       let pao := nth k (t_proj_aos self) (zeros []) in
       shape pao = [nao (mol hf); nao (mol hf); natm (mol hf); width po; width po]
       /\ forall r s a p q,
            (r < nao (mol hf))%nat -> (s < nao (mol hf))%nat ->
            (a < natm (mol hf))%nat -> (p < width po)%nat -> (q < width po)%nat ->
            get5 pao r s a p q = get3 po r a p * get3 po s a q
            /\ get5 pao r s a p q = get5 pao s r a q p.
Proof.
  intros Hinit.
  destruct (init_inv _ _ _ _ Hinit) as (_ & _ & _ & _ & _ & _ & _ & Haos).
  pose proof (shells_blocks _ _ _ _ Hinit) as Hb.
  split; [now rewrite Haos, length_map|].
  intros k Hk po pao.
  assert (Hpo : is_block (nao (mol hf)) (natm (mol hf)) po).
  { rewrite Forall_forall in Hb. apply Hb. now apply nth_In. }
  assert (Hpao : pao = pao_of po).
  { unfold pao, po. rewrite Haos.
    rewrite nth_indep with (d' := pao_of (zeros []))
      by (now rewrite length_map).
    apply map_nth. }
  split; [rewrite Hpao; exact (pao_shape _ _ po Hpo)|].
  intros r s a p q Hr Hs Ha Hp Hq.
  rewrite Hpao. unfold pao_of. rewrite Hpo. cbn [ix nth].
  rewrite !get5_build5 by assumption.
  split; [reflexivity | ring].
Qed.

(** X18: [get_veff] hands the baseline solver the baseline part of the last
    potential and not the potential itself; hence, when the baseline solver
    returns for an update from its own last result what it returns for a
    fresh start, so does the engine on the potential of its last call. *)
Theorem X18_update_from_last_call self d1 d2 v1 :
  get_veff syev self (Some d1) None None = Ok v1 ->
  (forall v0, get_veff0 self d1 None None = Ok v0 ->
     get_veff0 self d2 (Some d1) (Some v0) = get_veff0 self d2 None None) ->
  (exists v0, get_veff0 self d1 None None = Ok v0 /\ tag_v0 v1 = Some v0)
  /\ get_veff syev self (Some d2) (Some d1) (Some v1)
     = get_veff syev self (Some d2) None None.
Proof.
  intros Hv Hinc. unfold get_veff in Hv.
  destruct (negb _) in Hv; [discriminate|].
  apply bind_ok in Hv as (v0 & Hv0 & Hv).
  apply bind_ok in Hv as ([ec vc] & _ & Hv).
  apply bind_ok in Hv as (vtot & _ & Hv).
  injection Hv as <-.
  split; [exists v0; split; [exact Hv0 | reflexivity]|].
  unfold get_veff. cbn [tag_v0]. now rewrite (Hinc v0 Hv0).
Qed.

End DefaultsAndCalls.

Lemma X16_witness :
  exists self,
    DeepSCF_init one_hf test_model DEFAULT_BASIS = Ok self
    /\ n_proj self = 108%nat.
Proof.
  eexists. split; [reflexivity|].
  exact (proj1 (proj2 (proj2 (proj2
           (X16_default_basis syev_diag one_hf test_model _ eq_refl))))).
Defined.

Lemma X17_witness : length (t_proj_aos toy_self) = length (t_proj_shells toy_self).
Proof.
  exact (proj1 (X17_products_follow_blocks toy_hf test_model toy_basis toy_self
                  toy_init)).
Defined.

Lemma X18_witness :
  exists v1,
    get_veff syev_diag toy_self (Some toy_dm) None None = Ok v1
    /\ get_veff syev_diag toy_self (Some toy_dm) (Some toy_dm) (Some v1)
       = get_veff syev_diag toy_self (Some toy_dm) None None.
Proof.
  eexists. split.
  - exact (get_veff_ok syev_diag toy_hf test_model toy_basis toy_self toy_dm
             None None (zeros [2; 2]%nat) toy_init
             ltac:(discriminate) eq_refl eq_refl eq_refl).
  - apply (X18_update_from_last_call syev_diag toy_self toy_dm toy_dm).
    + exact (get_veff_ok syev_diag toy_hf test_model toy_basis toy_self toy_dm
               None None (zeros [2; 2]%nat) toy_init
               ltac:(discriminate) eq_refl eq_refl eq_refl).
    + intros v0 _. reflexivity.
Defined.
